(** * Verification of the Expo push-notification client (src/ExpoClient.ts)

    A shallow embedding of the client's dispatch pipeline: the message
    chunker, the response normalizer, the retrying sender and the token
    predicate, followed by the properties proved about them. *)

From Stdlib Require Import ZArith Lia Bool Arith PeanoNat.
From Stdlib Require Import Ascii String Decimal DecimalString.
(* [List] comes last so that [length], [concat] and [++] are those of lists. *)
From Stdlib Require Import List.
Import ListNotations.
Open Scope string_scope.
Open Scope list_scope.
Open Scope nat_scope.

Set Implicit Arguments.
Set Warnings "-register-all".

(** ** JavaScript values

    Values of TypeScript type [any]/[unknown] as the client meets them:
    what [JSON.parse] can produce, plus [undefined] for an absent
    property.  Numbers inside payloads are never inspected by the client;
    they are carried as integers.  Strings are sequences of 8-bit
    characters.  An object is the list of its own properties in insertion
    order (keys distinct). *)

Inductive JsValue : Type :=
| JUndefined
| JNull
| JBool (b : bool)
| JNum (n : Z)
| JStr (s : string)
| JArr (elements : list JsValue)
| JObj (props : list (string * JsValue)).

(** [Array.isArray(v)] *)
Definition isArray (v : JsValue) : bool :=
  match v with JArr _ => true | _ => false end.

(** [v != null]: neither [null] nor [undefined]. *)
Definition notNullish (v : JsValue) : bool :=
  match v with JUndefined | JNull => false | _ => true end.

(** ** Messages *)

Definition ExpoPushToken := string.

(** [to: ExpoPushToken | ExpoPushToken[]] *)
Inductive Recipient : Type :=
| ToOne (token : ExpoPushToken)
| ToMany (tokens : list ExpoPushToken).

Inductive Priority : Type := PriorityDefault | PriorityNormal | PriorityHigh.

(** [ExpoPushMessage]: the recipient field and the optional payload
    fields ([None] is an absent property). *)
Record ExpoPushMessage : Type := mkMessage {
  to : Recipient;
  data : option JsValue;
  title : option string;
  subtitle : option string;
  body : option string;
  sound : option JsValue;
  ttl : option Z;
  expiration : option Z;
  priority : option Priority;
  badge : option Z;
  channelId : option string;
  categoryId : option string;
  mutableContent : option bool
}.

(** [{ ...message, to: partialTo }]: a shallow copy with the recipient
    field replaced by the list [partialTo]. *)
Definition withTo (message : ExpoPushMessage) (partialTo : list ExpoPushToken)
  : ExpoPushMessage :=
  {| to := ToMany partialTo;
     data := data message;
     title := title message;
     subtitle := subtitle message;
     body := body message;
     sound := sound message;
     ttl := ttl message;
     expiration := expiration message;
     priority := priority message;
     badge := badge message;
     channelId := channelId message;
     categoryId := categoryId message;
     mutableContent := mutableContent message |}.

(** ** Constants *)

Definition PUSH_NOTIFICATION_CHUNK_LIMIT : nat := 100.
Definition PUSH_NOTIFICATION_RECEIPT_CHUNK_LIMIT : nat := 300.
Definition DEFAULT_CONCURRENT_REQUEST_LIMIT : nat := 6.

(** ** The chunker: [chunkPushNotifications]

    The three mutable locals of the function ([chunks], [chunk],
    [chunkMessagesCount]) are threaded as a record; [partialTo] is local
    to one message and is threaded through the inner loop beside it. *)

Record ChunkState : Type := mkChunkState {
  chunks : list (list ExpoPushMessage);
  chunk : list ExpoPushMessage;
  chunkMessagesCount : nat
}.

Definition initialChunkState : ChunkState :=
  {| chunks := []; chunk := []; chunkMessagesCount := 0 |}.

(** [for (const recipient of message.to) { ... }] *)
Fixpoint forEachRecipient (message : ExpoPushMessage)
    (recipients : list ExpoPushToken)
    (st : ChunkState) (partialTo : list ExpoPushToken)
  : ChunkState * list ExpoPushToken :=
  match recipients with
  | [] => (st, partialTo)
  | recipient :: rest =>
      let partialTo := partialTo ++ [recipient] in
      let count := S (chunkMessagesCount st) in
      if PUSH_NOTIFICATION_CHUNK_LIMIT <=? count then
        forEachRecipient message rest
          {| chunks := chunks st ++ [chunk st ++ [withTo message partialTo]];
             chunk := [];
             chunkMessagesCount := 0 |}
          []
      else
        forEachRecipient message rest
          {| chunks := chunks st;
             chunk := chunk st;
             chunkMessagesCount := count |}
          partialTo
  end.

(** The body of [for (const message of messages) { ... }] *)
Definition forEachMessage (st : ChunkState) (message : ExpoPushMessage)
  : ChunkState :=
  let st1 :=
    match to message with
    | ToMany recipients =>
        let (st', partialTo) := forEachRecipient message recipients st [] in
        if negb (length partialTo =? 0) then
          {| chunks := chunks st';
             chunk := chunk st' ++ [withTo message partialTo];
             chunkMessagesCount := chunkMessagesCount st' |}
        else st'
    | ToOne _ =>
        {| chunks := chunks st;
           chunk := chunk st ++ [message];
           chunkMessagesCount := S (chunkMessagesCount st) |}
    end in
  if PUSH_NOTIFICATION_CHUNK_LIMIT <=? chunkMessagesCount st1 then
    {| chunks := chunks st1 ++ [chunk st1];
       chunk := [];
       chunkMessagesCount := 0 |}
  else st1.

(** The tail of the function: [if (chunkMessagesCount) chunks.push(chunk)] *)
Definition finishChunks (st : ChunkState) : list (list ExpoPushMessage) :=
  if negb (chunkMessagesCount st =? 0) then chunks st ++ [chunk st]
  else chunks st.

Definition runMessages (st : ChunkState) (messages : list ExpoPushMessage)
  : ChunkState :=
  fold_left forEachMessage messages st.

Definition chunkPushNotifications (messages : list ExpoPushMessage)
  : list (list ExpoPushMessage) :=
  finishChunks (runMessages initialChunkState messages).

(** [Expo._getActualMessageCount]: a [reduce] from 0. *)
Definition _getActualMessageCount (messages : list ExpoPushMessage) : nat :=
  fold_left
    (fun total message =>
       match to message with
       | ToMany tokens => total + length tokens
       | ToOne _ => S total
       end)
    messages 0.

(** ** Recipients, flattened *)

Definition recipientsOf (message : ExpoPushMessage) : list ExpoPushToken :=
  match to message with
  | ToOne token => [token]
  | ToMany tokens => tokens
  end.

Definition batchRecipients (batch : list ExpoPushMessage)
  : list ExpoPushToken :=
  flat_map recipientsOf batch.

Definition allRecipients (batches : list (list ExpoPushMessage))
  : list ExpoPushToken :=
  flat_map batchRecipients batches.

Definition simpleMessage (r : Recipient) : ExpoPushMessage :=
  mkMessage r None None None None None None None None None None None None.

(** ** Errors

    [ExtensibleError] is an [Error] carrying whatever fields the client
    attaches to it; an absent field is [None]. *)

(** [ApiResultError]; [details] is of type [any] ([JUndefined] when
    absent). *)
Record ApiResultError : Type := mkApiResultError {
  message : string;
  code : string;
  details : JsValue;
  stack : option string
}.

(** [ApiResult]: the parsed body of a response, at the type the client
    declares for it ([let result: ApiResult = JSON.parse(textBody)]).
    [errors] is [None] when the property is absent or null, and its
    entries are [ApiResultError] objects; [result_data] is the [data]
    property, of type [any] ([JUndefined] when absent). *)
Record ApiResult : Type := mkApiResult {
  errors : option (list ApiResultError);
  result_data : JsValue
}.

Inductive ExtensibleError : Type := mkError {
  err_message : string;
  statusCode : option nat;
  errorText : option string;
  err_errorData : option ApiResult;
  err_code : option string;
  err_details : option JsValue;
  serverStack : option string;
  others : option (list ExtensibleError);
  err_data : option JsValue
}.

(** [new Error(message)] *)
Definition newError (msg : string) : ExtensibleError :=
  mkError msg None None None None None None None None.

(** Assignments [error.field = value]. *)
Definition setStatusCode (v : nat) (e : ExtensibleError) : ExtensibleError :=
  mkError (err_message e) (Some v) (errorText e) (err_errorData e)
    (err_code e) (err_details e) (serverStack e) (others e) (err_data e).

Definition setErrorText (v : string) (e : ExtensibleError) : ExtensibleError :=
  mkError (err_message e) (statusCode e) (Some v) (err_errorData e)
    (err_code e) (err_details e) (serverStack e) (others e) (err_data e).

Definition setErrorData (v : ApiResult) (e : ExtensibleError)
  : ExtensibleError :=
  mkError (err_message e) (statusCode e) (errorText e) (Some v)
    (err_code e) (err_details e) (serverStack e) (others e) (err_data e).

Definition setCode (v : string) (e : ExtensibleError) : ExtensibleError :=
  mkError (err_message e) (statusCode e) (errorText e) (err_errorData e)
    (Some v) (err_details e) (serverStack e) (others e) (err_data e).

Definition setDetails (v : JsValue) (e : ExtensibleError) : ExtensibleError :=
  mkError (err_message e) (statusCode e) (errorText e) (err_errorData e)
    (err_code e) (Some v) (serverStack e) (others e) (err_data e).

Definition setServerStack (v : string) (e : ExtensibleError)
  : ExtensibleError :=
  mkError (err_message e) (statusCode e) (errorText e) (err_errorData e)
    (err_code e) (err_details e) (Some v) (others e) (err_data e).

Definition setOthers (v : list ExtensibleError) (e : ExtensibleError)
  : ExtensibleError :=
  mkError (err_message e) (statusCode e) (errorText e) (err_errorData e)
    (err_code e) (err_details e) (serverStack e) (Some v) (err_data e).

Definition setData (v : JsValue) (e : ExtensibleError) : ExtensibleError :=
  mkError (err_message e) (statusCode e) (errorText e) (err_errorData e)
    (err_code e) (err_details e) (serverStack e) (others e) (Some v).

(** A [TypeError] raised by the runtime itself. *)
Inductive RuntimeTypeError : Type :=
| ReadPropertyOfNullish (base : JsValue) (property : string)
| CannotConvertToPrimitive.

(** Whatever a call can throw (or a promise reject with). *)
Inductive Thrown : Type :=
| ThrowError (e : ExtensibleError)
| ThrowTypeError (e : RuntimeTypeError)
| ThrowOther (reason : string).

Inductive Result (A : Type) : Type :=
| Return (a : A)
| Throw (t : Thrown).
Arguments Return {A} a.
Arguments Throw {A} t.

Definition bind {A B : Type} (c : Result A) (k : A -> Result B) : Result B :=
  match c with
  | Return a => k a
  | Throw t => Throw t
  end.

Notation "x <- c ;; k" := (bind c (fun x => k))
  (at level 61, c at next level, right associativity).

(** ** String conversions of template literals

    Counts and status codes are small non-negative integers, printed in
    plain decimal. *)

Definition numberToString (n : nat) : string :=
  NilZero.string_of_uint (Nat.to_uint n).

Definition integerToString (z : Z) : string :=
  NilZero.string_of_int (Z.to_int z).

Fixpoint lookupProperty (key : string) (props : list (string * JsValue))
  : JsValue :=
  match props with
  | [] => JUndefined
  | (k, v) :: rest => if String.eqb k key then v else lookupProperty key rest
  end.

Definition hasOwnProperty (key : string) (props : list (string * JsValue))
  : bool :=
  existsb (fun kv => String.eqb (fst kv) key) props.

(** [v.length]: throws on [null] and [undefined], is [undefined] on
    booleans and numbers. *)
Definition getLength (v : JsValue) : Result JsValue :=
  match v with
  | JUndefined | JNull => Throw (ThrowTypeError (ReadPropertyOfNullish v "length"))
  | JBool _ | JNum _ => Return JUndefined
  | JStr s => Return (JNum (Z.of_nat (String.length s)))
  | JArr elements => Return (JNum (Z.of_nat (length elements)))
  | JObj props => Return (lookupProperty "length" props)
  end.

Fixpoint joinStrings (sep : string) (parts : list string) : string :=
  match parts with
  | [] => ""
  | [p] => p
  | p :: rest => (p ++ sep ++ joinStrings sep rest)%string
  end.

Fixpoint sequenceResults {A : Type} (l : list (Result A)) : Result (list A) :=
  match l with
  | [] => Return []
  | c :: rest => x <- c ;; xs <- sequenceResults rest ;; Return (x :: xs)
  end.

(** [`${v}`]: the string conversion of a value.  An array is joined with
    commas, [null] and [undefined] elements giving the empty string; a
    plain object gives ["[object Object]"] unless an own [toString]
    property (never callable in parsed JSON) hides the inherited method, in
    which case the conversion throws. *)
Fixpoint toString (v : JsValue) : Result string :=
  match v with
  | JUndefined => Return "undefined"
  | JNull => Return "null"
  | JBool b => Return (if b then "true" else "false")
  | JNum n => Return (integerToString n)
  | JStr s => Return s
  | JArr elements =>
      parts <- sequenceResults
                 (map (fun e => match e with
                                | JUndefined | JNull => Return ""
                                | _ => toString e
                                end) elements) ;;
      Return (joinStrings "," parts)
  | JObj props =>
      if hasOwnProperty "toString" props
      then Throw (ThrowTypeError CannotConvertToPrimitive)
      else Return "[object Object]"
  end.

(** ** The response normalizer *)

(** A response as the client reads it: its status, [await response.text()]
    and the outcome of [JSON.parse] on that text ([None] when it throws). *)
Record Response : Type := mkResponse {
  status : nat;
  textBody : string;
  jsonBody : option ApiResult
}.

(** [getTextResponseErrorAsync] *)
Definition getTextResponseErrorAsync (response : Response) (text : string)
  : ExtensibleError :=
  let apiError :=
    newError ("Expo responded with an error with status code "
              ++ numberToString (status response) ++ ": " ++ text)%string in
  let apiError := setStatusCode (status response) apiError in
  let apiError := setErrorText text apiError in
  apiError.

(** [getErrorFromResultError] *)
Definition getErrorFromResultError (errorData : ApiResultError)
  : ExtensibleError :=
  let error := newError (message errorData) in
  let error := setCode (code errorData) error in
  let error :=
    if notNullish (details errorData)         (* errorData.details != null *)
    then setDetails (details errorData) error else error in
  let error :=
    match stack errorData with                (* errorData.stack != null *)
    | Some serverStack => setServerStack serverStack error
    | None => error
    end in
  error.

(** [getErrorFromResult] *)
Definition getErrorFromResult (response : Response) (result : ApiResult)
  : Result ExtensibleError :=
  match errors result with
  | None | Some [] =>             (* !result.errors || !result.errors[0] *)
      Throw (ThrowError (newError "Expected at least one error from Expo"))
  | Some (errorData :: otherErrorData) =>
      let error := getErrorFromResultError errorData in
      let error :=
        if negb (length otherErrorData =? 0)
        then setOthers (map getErrorFromResultError otherErrorData) error
        else error in
      let error := setStatusCode (status response) error in
      Return error
  end.

(** [parseErrorResponseAsync] *)
Definition parseErrorResponseAsync (response : Response)
  : Result ExtensibleError :=
  let textBody := textBody response in
  match jsonBody response with
  | None => Return (getTextResponseErrorAsync response textBody)
  | Some result =>
      match errors result with
      | None | Some [] =>         (* !result.errors || ... || !result.errors.length *)
          let apiError := getTextResponseErrorAsync response textBody in
          let apiError := setErrorData result apiError in
          Return apiError
      | Some (_ :: _) => getErrorFromResult response result
      end
  end.

(** What [fetch] does on one call. *)
Inductive FetchOutcome : Type :=
| FetchResolved (response : Response)
| FetchRejected (reason : Thrown).

(** [requestAsync], from the point where [fetch] settles.  (Building the
    request, its headers and its compression do not depend on the
    response and are left out.) *)
Definition requestAsync (fetched : FetchOutcome) : Result JsValue :=
  match fetched with
  | FetchRejected reason => Throw reason
  | FetchResolved response =>
      if negb (status response =? 200) then
        apiError <- parseErrorResponseAsync response ;;
        Throw (ThrowError apiError)
      else
        match jsonBody response with
        | None =>
            Throw (ThrowError
                     (getTextResponseErrorAsync response (textBody response)))
        | Some result =>
            match errors result with
            | Some _ =>                       (* if (result.errors) *)
                apiError <- getErrorFromResult response result ;;
                Throw (ThrowError apiError)
            | None => Return (result_data result)
            end
        end
  end.

(** ** Retrying *)

Record RetryOptions : Type := mkRetryOptions {
  retries : nat;
  factor : nat;
  minTimeout : nat
}.

Definition REQUEST_RETRY_OPTIONS : RetryOptions :=
  {| retries := 2; factor := 2; minTimeout := 1000 |}.

(** [error.statusCode] of a thrown value. *)
Definition thrownStatusCode (error : Thrown) : option nat :=
  match error with
  | ThrowError e => statusCode e
  | _ => None
  end.

(** [shouldRetry: (error) => error.statusCode === 429] *)
Definition shouldRetry (error : Thrown) : bool :=
  match thrownStatusCode error with
  | Some c => c =? 429
  | None => false
  end.

(** What a retried call does, in order. *)
Inductive RetryEvent : Type :=
| Attempt (attemptNumber : nat)
| Wait (milliseconds : nat).

(** Modelled from the spec: [promiseRetry], the imported retry helper
    whose code is not part of the sources.  Per the spec's executor: a
    failed attempt is retried when [shouldRetry] accepts its error and
    retries are left, after a delay of [minTimeout * factor ^ k] for the
    [k]-th retry counted from 0; any other error propagates at once; when
    the retries are used up the last error propagates.  [input] gives the
    outcome of each attempt, numbered from 1. *)
Fixpoint retryLoop {T : Type} (input : nat -> Result T)
    (options : RetryOptions) (retry : Thrown -> bool)
    (attemptNumber retriesLeft : nat) : Result T * list RetryEvent :=
  match input attemptNumber with
  | Return value => (Return value, [Attempt attemptNumber])
  | Throw error =>
      if retry error then
        match retriesLeft with
        | 0 => (Throw error, [Attempt attemptNumber])
        | S retriesLeft =>
            let delay :=
              minTimeout options * factor options ^ (attemptNumber - 1) in
            let (outcome, events) :=
              retryLoop input options retry (S attemptNumber) retriesLeft in
            (outcome, Attempt attemptNumber :: Wait delay :: events)
        end
      else (Throw error, [Attempt attemptNumber])
  end.

Definition promiseRetry {T : Type} (input : nat -> Result T)
    (options : RetryOptions) (retry : Thrown -> bool)
  : Result T * list RetryEvent :=
  retryLoop input options retry 1 (retries options).

(** ** Sending *)

(** The unit of work of [sendPushNotificationsAsync]: the request to
    [/push/send] under [promiseRetry].  [fetch n] is what the [n]-th call
    of [fetch] does. *)
Definition sendRequest (fetch : nat -> FetchOutcome)
  : Result JsValue * list RetryEvent :=
  promiseRetry (fun attemptNumber => requestAsync (fetch attemptNumber))
    REQUEST_RETRY_OPTIONS shouldRetry.

(** Modelled from the spec: [limitConcurrentRequests], the limiter built
    by the imported [promiseLimit]; the call settles as the thunk does.
    When the thunk starts is the matter of [Limiter] below. *)
Definition limitConcurrentRequests {T : Type} (thunk : unit -> Result T)
  : Result T :=
  thunk tt.

(** [data.length !== actualMessagesCount], for an array. *)
Definition lengthDiffers (data : JsValue) (actualMessagesCount : nat) : bool :=
  match data with
  | JArr elements => negb (length elements =? actualMessagesCount)
  | _ => true
  end.

(** [sendPushNotificationsAsync] *)
Definition sendPushNotificationsAsync (messages : list ExpoPushMessage)
    (fetch : nat -> FetchOutcome) : Result JsValue :=
  let actualMessagesCount := _getActualMessageCount messages in
  data <- limitConcurrentRequests (fun _ => fst (sendRequest fetch)) ;;
  if negb (isArray data) || lengthDiffers data actualMessagesCount then
    got <- (l <- getLength data ;; toString l) ;;
    let apiError :=
      newError ("Expected Expo to respond with "
                ++ numberToString actualMessagesCount ++ " "
                ++ (if (actualMessagesCount =? 1)%nat then "ticket" else "tickets")
                ++ " but got " ++ got)%string in
    let apiError := setData data apiError in
    Throw (ThrowError apiError)
  else Return data.

(** ** The client instance and its concurrency limit *)

Inductive Compression : Type :=
| CompressionEnabled | CompressionNodeCompat | CompressionDisabled.

Record ExpoClientOptions : Type := mkOptions {
  maxConcurrentRequests : option nat;
  accessToken : option string;
  compression : option Compression
}.

(** The fields of an [Expo] instance; the limiter is kept as the limit it
    was built with. *)
Record Expo : Type := mkExpo {
  limitConcurrentRequestsAt : nat;
  expoAccessToken : option string;
  expoCompression : Compression
}.

(** [constructor(options = {})] *)
Definition Expo_constructor (options : ExpoClientOptions) : Expo :=
  {| limitConcurrentRequestsAt :=
       match maxConcurrentRequests options with   (* != null ? ... : default *)
       | Some n => n
       | None => DEFAULT_CONCURRENT_REQUEST_LIMIT
       end;
     expoAccessToken := accessToken options;
     expoCompression :=
       match compression options with             (* ?? 'enabled' *)
       | Some c => c
       | None => CompressionEnabled
       end |}.

(** Modelled from the spec: the limiter built by the imported
    [promiseLimit], whose code is not part of the sources.  Per the
    spec's executor it holds a queue of pending work and the work in
    progress: a submitted unit joins the queue, the oldest queued unit
    begins whenever fewer than [concurrency] units are in progress, and a
    unit leaves only when it settles.

    A unit of work is one call of [sendPushNotificationsAsync]: its thunk
    is the whole retried request, so what it does while it holds its slot
    is the event list of [sendRequest] (an [Attempt] is a transport call in
    flight, a [Wait] a backoff delay). *)
Module Limiter.

Definition WorkUnit : Type := nat * list RetryEvent.

Record State : Type := mkState {
  concurrency : nat;
  pending : list WorkUnit;      (* the queue, oldest first *)
  running : list WorkUnit;      (* units holding a slot, with what is left to do *)
  begun : list nat;             (* units in the order they began *)
  submitted : list nat          (* units in the order they were submitted *)
}.

Definition create (limit : nat) : State :=
  {| concurrency := limit; pending := []; running := [];
     begun := []; submitted := [] |}.

(** The limiter of a client instance. *)
Definition ofClient (client : Expo) : State :=
  create (limitConcurrentRequestsAt client).

(** The oldest queued unit begins if a slot is free. *)
Definition startNext (s : State) : State :=
  match pending s with
  | [] => s
  | unit :: queue =>
      if length (running s) <? concurrency s then
        {| concurrency := concurrency s;
           pending := queue;
           running := running s ++ [unit];
           begun := begun s ++ [fst unit];
           submitted := submitted s |}
      else s
  end.

(** What can happen: a unit is submitted (with what its transport will
    do), or the current attempt or wait of a unit in progress ends. *)
Inductive Event : Type :=
| Submit (id : nat) (fetch : nat -> FetchOutcome)
| Progress (id : nat).

(** The current attempt or wait of the first unit [id] in progress
    ends: it moves on to its next event and keeps its slot, or, on its
    last event, settles; [None] is no such unit. *)
Fixpoint advance (id : nat) (units : list WorkUnit)
  : option (list WorkUnit * bool) :=
  match units with
  | [] => None
  | (id', todo) :: rest =>
      if id' =? id then
        match todo with
        | _ :: ((_ :: _) as todo') => Some ((id', todo') :: rest, false)
        | _ => Some (rest, true)
        end
      else
        match advance id rest with
        | Some (rest', settled) => Some ((id', todo) :: rest', settled)
        | None => None
        end
  end.

Definition step (s : State) (e : Event) : State :=
  match e with
  | Submit id fetch =>
      startNext
        {| concurrency := concurrency s;
           pending := pending s ++ [(id, snd (sendRequest fetch))];
           running := running s;
           begun := begun s;
           submitted := submitted s ++ [id] |}
  | Progress id =>
      match advance id (running s) with
      | None => s
      | Some (running', settled) =>
          let s' :=
            {| concurrency := concurrency s;
               pending := pending s;
               running := running';
               begun := begun s;
               submitted := submitted s |} in
          if settled then startNext s' else s'
      end
  end.

Definition run (s : State) (events : list Event) : State :=
  fold_left step events s.

(** A unit in progress has a transport call in flight. *)
Definition inFlight (unit : WorkUnit) : bool :=
  match snd unit with
  | Attempt _ :: _ => true
  | _ => false
  end.

Definition inFlightCount (s : State) : nat :=
  length (filter inFlight (running s)).

End Limiter.

(** ** The token predicate *)

(** [s.startsWith(prefix)] *)
Fixpoint startsWith (s prefix : string) {struct prefix} : bool :=
  match prefix with
  | EmptyString => true
  | String p prefix' =>
      match s with
      | EmptyString => false
      | String c s' => Ascii.eqb c p && startsWith s' prefix'
      end
  end.

(** [s.endsWith(suffix)]: [suffix] is [s] or ends a tail of [s]. *)
Fixpoint endsWith (s suffix : string) : bool :=
  String.eqb s suffix ||
  match s with
  | EmptyString => false
  | String _ s' => endsWith s' suffix
  end.

(** The pieces of the regular expression: a character class repeated an
    exact number of times, or one literal character. *)
Inductive RegexPiece : Type :=
| Class (accepts : ascii -> bool) (count : nat)
| Literal (c : ascii).

(** Consume exactly [count] characters of the class. *)
Fixpoint matchClass (accepts : ascii -> bool) (count : nat) (s : string)
  : option string :=
  match count with
  | 0 => Some s
  | S count' =>
      match s with
      | EmptyString => None
      | String c s' =>
          if accepts c then matchClass accepts count' s' else None
      end
  end.

(** [/^...$/.test(s)]: the pieces in sequence, anchored at both ends. *)
Fixpoint regexTest (pieces : list RegexPiece) (s : string) : bool :=
  match pieces with
  | [] => match s with EmptyString => true | String _ _ => false end
  | Class accepts count :: rest =>
      match matchClass accepts count s with
      | Some s' => regexTest rest s'
      | None => false
      end
  | Literal c :: rest =>
      match s with
      | String c' s' => Ascii.eqb c' c && regexTest rest s'
      | EmptyString => false
      end
  end.

Definition inRange (lo hi : nat) (c : ascii) : bool :=
  (lo <=? nat_of_ascii c) && (nat_of_ascii c <=? hi).

(** [[a-z\d]] under the [i] flag: an ASCII letter of either case or a
    decimal digit. *)
Definition letterOrDigit (c : ascii) : bool :=
  inRange 97 122 c || inRange 65 90 c || inRange 48 57 c.

(** [/^[a-z\d]{8}-[a-z\d]{4}-[a-z\d]{4}-[a-z\d]{4}-[a-z\d]{12}$/i] *)
Definition UUID_REGEX : list RegexPiece :=
  [ Class letterOrDigit 8; Literal "-";
    Class letterOrDigit 4; Literal "-";
    Class letterOrDigit 4; Literal "-";
    Class letterOrDigit 4; Literal "-";
    Class letterOrDigit 12 ].

(** [Expo.isExpoPushToken] *)
Definition isExpoPushToken (token : JsValue) : bool :=
  match token with
  | JStr token =>                             (* typeof token === 'string' *)
      ((startsWith token "ExponentPushToken["
        || startsWith token "ExpoPushToken[")
       && endsWith token "]")
      || regexTest UUID_REGEX token
  | _ => false
  end.

(** *** The token formats, stated on the string itself *)

Definition StartsWith (s prefix : string) : Prop :=
  exists rest, s = (prefix ++ rest)%string.

Definition EndsWith (s suffix : string) : Prop :=
  exists front, s = (front ++ suffix)%string.

Fixpoint allChars (accepts : ascii -> bool) (s : string) : bool :=
  match s with
  | EmptyString => true
  | String c s' => accepts c && allChars accepts s'
  end.

(** A group of exactly [n] characters of the class. *)
Definition Group (accepts : ascii -> bool) (n : nat) (g : string) : Prop :=
  String.length g = n /\ allChars accepts g = true.

(** Five groups of 8, 4, 4, 4 and 12 characters, joined by hyphens. *)
Definition UuidShaped (accepts : ascii -> bool) (s : string) : Prop :=
  exists g1 g2 g3 g4 g5,
    s = (g1 ++ "-" ++ g2 ++ "-" ++ g3 ++ "-" ++ g4 ++ "-" ++ g5)%string /\
    Group accepts 8 g1 /\ Group accepts 4 g2 /\ Group accepts 4 g3 /\
    Group accepts 4 g4 /\ Group accepts 12 g5.

(** A hexadecimal digit of either case. *)
Definition hexDigit (c : ascii) : bool :=
  inRange 48 57 c || inRange 97 102 c || inRange 65 70 c.

(** The bracketed form of a token. *)
Definition Bracketed (s : string) : Prop :=
  (StartsWith s "ExponentPushToken[" \/ StartsWith s "ExpoPushToken[") /\
  EndsWith s "]".

(** The token format as the specification words it: the bracketed form,
    or a UUID-shaped string of hexadecimal digits. *)
Definition SpecToken (token : JsValue) : Prop :=
  exists s, token = JStr s /\ (Bracketed s \/ UuidShaped hexDigit s).

(** ** Vocabulary of the statements and concrete inputs *)

Definition hasRecipients (m : ExpoPushMessage) : Prop := recipientsOf m <> [].

Record ChunkInv (st : ChunkState) : Prop := {
  inv_lt : chunkMessagesCount st < PUSH_NOTIFICATION_CHUNK_LIMIT;
  inv_count : chunkMessagesCount st = length (batchRecipients (chunk st));
  inv_open : Forall hasRecipients (chunk st);
  inv_full : Forall (fun b => length (batchRecipients b)
                              = PUSH_NOTIFICATION_CHUNK_LIMIT) (chunks st);
  inv_closed : Forall (Forall hasRecipients) (chunks st)
}.

(** Recipients already emitted or waiting in the open batch. *)
Definition emitted (st : ChunkState) : list ExpoPushToken :=
  allRecipients (chunks st) ++ batchRecipients (chunk st).

Definition prependChunks (pre : list (list ExpoPushMessage)) (st : ChunkState)
  : ChunkState :=
  {| chunks := pre ++ chunks st;
     chunk := chunk st;
     chunkMessagesCount := chunkMessagesCount st |}.

(** All fields but the recipient. *)
Definition sameExceptTo (f m : ExpoPushMessage) : Prop :=
  data f = data m /\ title f = title m /\ subtitle f = subtitle m /\
  body f = body m /\ sound f = sound m /\ ttl f = ttl m /\
  expiration f = expiration m /\ priority f = priority m /\
  badge f = badge m /\ channelId f = channelId m /\
  categoryId f = categoryId m /\ mutableContent f = mutableContent m.

(** Consecutive batches holding the fragments of one message: the first
    fragment ends the batch that starts with [h], the last one begins the
    batch that goes on with [t], the others are alone in theirs. *)
Fixpoint placeFragments (h fragments t : list ExpoPushMessage)
  : list (list ExpoPushMessage) :=
  match fragments with
  | [] => []
  | f :: rest =>
      match rest with
      | [] => [h ++ f :: t]
      | _ :: _ => (h ++ [f]) :: placeFragments [] rest t
      end
  end.

Definition manyTokens (n : nat) : list ExpoPushToken :=
  map (fun i => String (ascii_of_nat (48 + i mod 10)) "") (seq 0 n).

Definition bigMessage : ExpoPushMessage :=
  {| to := ToMany (manyTokens 250);
     data := Some (JObj [("k", JNum 1%Z)]);
     title := Some "hello"; subtitle := None; body := Some "world";
     sound := Some (JStr "default"); ttl := Some 60%Z; expiration := None;
     priority := Some PriorityHigh; badge := Some 3%Z;
     channelId := None; categoryId := None; mutableContent := Some true |}.

Definition emptyMessage : ExpoPushMessage :=
  {| to := ToMany [];
     data := None; title := Some "nobody"; subtitle := None; body := None;
     sound := None; ttl := None; expiration := None; priority := None;
     badge := None; channelId := None; categoryId := None;
     mutableContent := None |}.

Definition aroundEmpty : list ExpoPushMessage :=
  [simpleMessage (ToOne "a")] ++ emptyMessage :: [simpleMessage (ToOne "z")].

Definition okResponse (text : string) (result : ApiResult) : Response :=
  {| status := 200; textBody := text; jsonBody := Some result |}.

Definition twoErrors : ApiResult :=
  {| errors := Some [ mkApiResultError "bad" "X" JUndefined None;
                      mkApiResultError "worse" "Y" JNull (Some "at f") ];
     result_data := JUndefined |}.

(** The double quote, for writing JSON texts. *)
Definition dq : string := String (ascii_of_nat 34) "".

(** A server that answers 200 with the body [{"data":null}]. *)
Definition nullPayload : nat -> FetchOutcome :=
  fun _ => FetchResolved
             (okResponse ("{" ++ dq ++ "data" ++ dq ++ ":null}")%string
                {| errors := None; result_data := JNull |}).

(** A server that answers 200 with the body [{}]. *)
Definition missingPayload : nat -> FetchOutcome :=
  fun _ => FetchResolved
             (okResponse "{}" {| errors := None; result_data := JUndefined |}).

Definition always429 : nat -> FetchOutcome :=
  fun _ => FetchResolved (mkResponse 429 "slow" None).

(** What the regular expression test accepts, piece by piece. *)
Fixpoint Matches (pieces : list RegexPiece) (s : string) : Prop :=
  match pieces with
  | [] => s = ""
  | Class accepts count :: rest =>
      exists g s', s = (g ++ s')%string /\ Group accepts count g /\
                   Matches rest s'
  | Literal c :: rest =>
      exists s', s = String c s' /\ Matches rest s'
  end.

Definition lettersOnly : string := "zzzzzzzz-zzzz-zzzz-zzzz-zzzzzzzzzzzz".

Record LimiterInv (s : Limiter.State) : Prop := {
  inv_capacity : length (Limiter.running s) <= Limiter.concurrency s;
  inv_fifo : Limiter.submitted s
             = Limiter.begun s ++ map fst (Limiter.pending s);
  inv_waiting : Limiter.pending s <> [] ->
                length (Limiter.running s) = Limiter.concurrency s
}.

Definition twoUnits : list Limiter.Event :=
  [ Limiter.Submit 1 (fun _ => FetchResolved (mkResponse 429 "slow" None));
    Limiter.Submit 2 (fun _ => FetchResolved (mkResponse 429 "slow" None));
    Limiter.Progress 1 ].

Definition oneAtATime : ExpoClientOptions :=
  {| maxConcurrentRequests := Some 1; accessToken := None;
     compression := None |}.

(** ** The flat chunker: [chunkItems] and [chunkPushNotificationReceiptIds] *)

Definition ExpoPushReceiptId := string.

(** The body of [for (const item of items) { ... }], on the two locals
    [chunks] and [chunk]. *)
Definition forEachItem {T : Type} (chunkSize : nat)
    (st : list (list T) * list T) (item : T) : list (list T) * list T :=
  let (chunks, chunk) := st in
  let chunk := chunk ++ [item] in
  if chunkSize <=? length chunk then (chunks ++ [chunk], [])
  else (chunks, chunk).

(** [chunkItems] *)
Definition chunkItems {T : Type} (items : list T) (chunkSize : nat)
  : list (list T) :=
  let (chunks, chunk) := fold_left (forEachItem chunkSize) items ([], []) in
  if negb (length chunk =? 0) then chunks ++ [chunk] else chunks.

(** [chunkPushNotificationReceiptIds] *)
Definition chunkPushNotificationReceiptIds (receiptIds : list ExpoPushReceiptId)
  : list (list ExpoPushReceiptId) :=
  chunkItems receiptIds PUSH_NOTIFICATION_RECEIPT_CHUNK_LIMIT.

(** ** Receipts: [getPushNotificationReceiptsAsync] *)

(** [!v] is false: the value is truthy. *)
Definition truthy (v : JsValue) : bool :=
  match v with
  | JUndefined | JNull => false
  | JBool b => b
  | JNum n => negb (n =? 0)%Z
  | JStr s => negb (String.eqb s "")
  | JArr _ | JObj _ => true
  end.

(** [typeof v === 'object'] *)
Definition typeofObject (v : JsValue) : bool :=
  match v with
  | JNull | JArr _ | JObj _ => true
  | _ => false
  end.

(** [getPushNotificationReceiptsAsync], from the point where its one call
    of [fetch] settles: the request goes straight to [requestAsync]. *)
Definition getPushNotificationReceiptsAsync
    (receiptIds : list ExpoPushReceiptId) (fetched : FetchOutcome)
  : Result JsValue :=
  data <- requestAsync fetched ;;
  if negb (truthy data) || negb (typeofObject data) || isArray data then
    let apiError :=
      newError "Expected Expo to respond with a map from receipt IDs to receipts but received data of another type" in
    let apiError := setData data apiError in
    Throw (ThrowError apiError)
  else Return data.

(** ** Building the request: the first half of [requestAsync] *)

Definition BASE_URL : string := "https://exp.host".
Definition BASE_API_URL : string := (BASE_URL ++ "/--/api/v2")%string.

(** A [Headers] object: names with their values, [set] replacing the
    value of a name already present. *)
Definition Headers : Type := list (string * string).

Fixpoint headersSet (name value : string) (headers : Headers) : Headers :=
  match headers with
  | [] => [(name, value)]
  | (n, v) :: rest =>
      if String.eqb n name then (name, value) :: rest
      else (n, v) :: headersSet name value rest
  end.

Fixpoint headersGet (name : string) (headers : Headers) : option string :=
  match headers with
  | [] => None
  | (n, v) :: rest => if String.eqb n name then Some v else headersGet name rest
  end.

Inductive HttpMethod : Type := HttpGet | HttpPost.

(** The body handed to [fetch]: the JSON text itself, or what
    [gzipAsync(json, stringOutput)] makes of it. *)
Inductive RequestBody : Type :=
| BodyText (json : string)
| BodyGzip (json : string) (stringOutput : bool).

(** [RequestOptions]; [bodyJson] is [JSON.stringify(options.body)], [None]
    when [options.body] is null or undefined. *)
Record RequestOptions : Type := mkRequestOptions {
  httpMethod : HttpMethod;
  bodyJson : option string;
  shouldCompress : string -> bool
}.

(** The arguments of [fetch]. *)
Record Request : Type := mkRequest {
  requestUrl : string;
  requestMethod : HttpMethod;
  requestBody : option RequestBody;
  requestHeaders : Headers
}.

Definition compressionDisabled (c : Compression) : bool :=
  match c with CompressionDisabled => true | _ => false end.

Definition compressionNodeCompat (c : Compression) : bool :=
  match c with CompressionNodeCompat => true | _ => false end.

(** [requestAsync] up to its call of [fetch]. *)
Definition buildRequest (client : Expo) (url : string)
    (options : RequestOptions) : Request :=
  let requestHeaders : Headers :=
    [ ("Accept", "application/json");
      ("Accept-Encoding", "gzip, deflate");
      ("User-Agent", "expo-push-api-js") ] in
  let requestHeaders :=
    match expoAccessToken client with          (* if (this.accessToken) *)
    | Some token =>
        if negb (String.eqb token "")
        then headersSet "Authorization" ("Bearer " ++ token)%string requestHeaders
        else requestHeaders
    | None => requestHeaders
    end in
  match bodyJson options with                  (* if (options.body != null) *)
  | Some json =>
      let compress :=
        shouldCompress options json
        && negb (compressionDisabled (expoCompression client)) in
      let requestBody :=
        if compress
        then BodyGzip json (compressionNodeCompat (expoCompression client))
        else BodyText json in
      let requestHeaders :=
        if compress then headersSet "Content-Encoding" "gzip" requestHeaders
        else requestHeaders in
      let requestHeaders :=
        headersSet "Content-Type" "application/json" requestHeaders in
      {| requestUrl := url; requestMethod := httpMethod options;
         requestBody := Some requestBody; requestHeaders := requestHeaders |}
  | None =>
      {| requestUrl := url; requestMethod := httpMethod options;
         requestBody := None; requestHeaders := requestHeaders |}
  end.

(** [f] is a message of [all] or a copy of one with another recipient
    list. *)
Definition derivedFrom (all : list ExpoPushMessage) (f : ExpoPushMessage)
  : Prop :=
  exists m, In m all /\ (f = m \/ exists part, f = withTo m part).

(** The last character of a string. *)
Fixpoint lastChar (s : string) : option ascii :=
  match s with
  | EmptyString => None
  | String c EmptyString => Some c
  | String _ rest => lastChar rest
  end.

(** ** The response normalizer on any parsed body

    [JSON.parse] returns whatever the text denotes: [null], a number, a
    string, an array, or an object whose [errors] may be anything.  Here the
    normalizer is followed on such a value, with the reads and tests of the
    source as the runtime performs them; the fields of an error hold
    values.  (The normalizer above is the same code on bodies of the
    declared type [ApiResult].) *)
Module Untyped.

(** An [Error] with the fields the normalizer attaches.  [code] is
    [JUndefined] until assigned (and when assigned [undefined]). *)
Inductive Error : Type := mkError {
  message : string;
  statusCode : option nat;
  errorText : option string;
  errorData : option JsValue;
  code : JsValue;
  details : option JsValue;
  serverStack : option JsValue;
  others : option (list Error)
}.

Inductive TypeError : Type :=
| ReadOfNullish (base : JsValue) (property : string)
| NotIterable (value : JsValue)
| NoPrimitive.

Inductive Thrown : Type :=
| ThrowError (e : Error)
| ThrowTypeError (e : TypeError).

Inductive Outcome (A : Type) : Type :=
| Returns (a : A)
| Throws (t : Thrown).
Arguments Returns {A} a.
Arguments Throws {A} t.

Definition andThen {A B : Type} (c : Outcome A) (k : A -> Outcome B)
  : Outcome B :=
  match c with
  | Returns a => k a
  | Throws t => Throws t
  end.

Notation "x <~ c ;; k" := (andThen c (fun x => k))
  (at level 61, c at next level, right associativity).

Fixpoint forEach {A B : Type} (f : A -> Outcome B) (l : list A)
  : Outcome (list B) :=
  match l with
  | [] => Returns []
  | a :: rest => b <~ f a ;; bs <~ forEach f rest ;; Returns (b :: bs)
  end.

(** [v.property], for the properties the normalizer reads ([errors],
    [data], [message], [code], [details], [stack], [length]); none of them
    is inherited from a prototype except [length] of strings and arrays. *)
Definition get (v : JsValue) (property : string) : Outcome JsValue :=
  match v with
  | JUndefined | JNull => Throws (ThrowTypeError (ReadOfNullish v property))
  | JBool _ | JNum _ => Returns JUndefined
  | JStr s =>
      Returns (if String.eqb property "length"
               then JNum (Z.of_nat (String.length s)) else JUndefined)
  | JArr elements =>
      Returns (if String.eqb property "length"
               then JNum (Z.of_nat (length elements)) else JUndefined)
  | JObj props => Returns (lookupProperty property props)
  end.

(** [v[0]], for a truthy [v]. *)
Definition first (v : JsValue) : JsValue :=
  match v with
  | JArr (x :: _) => x
  | JStr (String c _) => JStr (String c "")
  | JObj props => lookupProperty "0" props
  | _ => JUndefined
  end.

(** The elements an array pattern takes from [v]: those of an array, the
    characters of a string; nothing else met here is iterable. *)
Definition iterate (v : JsValue) : Outcome (list JsValue) :=
  match v with
  | JArr elements => Returns elements
  | JStr s => Returns (map (fun c => JStr (String c "")) (list_ascii_of_string s))
  | _ => Throws (ThrowTypeError (NotIterable v))
  end.

(** [`${v}`] *)
Definition stringOf (v : JsValue) : Outcome string :=
  match toString v with
  | Return s => Returns s
  | Throw _ => Throws (ThrowTypeError NoPrimitive)
  end.

(** [new Error(message)]: no message for [undefined], else its string. *)
Definition newError (message : JsValue) : Outcome Error :=
  text <~ match message with
          | JUndefined => Returns ""
          | _ => stringOf message
          end ;;
  Returns (mkError text None None None JUndefined None None None).

(** The error thrown by [getErrorFromResult] when it finds no entry. *)
Definition noEntryError : Error :=
  mkError "Expected at least one error from Expo"
    None None None JUndefined None None None.

(** A response as the client reads it: its status, [await response.text()]
    and the value [JSON.parse] returns for that text ([None] when it
    throws). *)
Record Response : Type := mkResponse {
  status : nat;
  textBody : string;
  parsed : option JsValue
}.

(** [getTextResponseErrorAsync] *)
Definition getTextResponseErrorAsync (response : Response) (text : string)
  : Error :=
  mkError
    ("Expo responded with an error with status code "
     ++ numberToString (status response) ++ ": " ++ text)%string
    (Some (status response))                  (* apiError.statusCode = response.status *)
    (Some text)                               (* apiError.errorText = text *)
    None JUndefined None None None.

(** [getErrorFromResultError]; [entry] is the source's parameter
    [errorData]. *)
Definition getErrorFromResultError (entry : JsValue) : Outcome Error :=
  entryMessage <~ get entry "message" ;;
  error <~ newError entryMessage ;;
  entryCode <~ get entry "code" ;;
  entryDetails <~ get entry "details" ;;
  entryStack <~ get entry "stack" ;;
  Returns
    (mkError (message error) (statusCode error) (errorText error)
       (errorData error)
       entryCode                              (* error.code = errorData.code *)
       (if notNullish entryDetails then Some entryDetails else details error)
       (if notNullish entryStack then Some entryStack else serverStack error)
       (others error)).

(** [getErrorFromResult] *)
Definition getErrorFromResult (response : Response) (result : JsValue)
  : Outcome Error :=
  errors <~ get result "errors" ;;
  if negb (truthy errors) || negb (truthy (first errors)) then
    Throws (ThrowError noEntryError)
  else
    entries <~ iterate errors ;;              (* [errorData, ...otherErrorData] *)
    let entry := hd JUndefined entries in
    let otherEntries := tl entries in
    error <~ getErrorFromResultError entry ;;
    errorOthers <~ (if negb (length otherEntries =? 0)
                    then siblings <~ forEach getErrorFromResultError
                                       otherEntries ;;
                         Returns (Some siblings)
                    else Returns (others error)) ;;
    Returns
      (mkError (message error)
         (Some (status response))             (* error.statusCode = response.status *)
         (errorText error) (errorData error) (code error) (details error)
         (serverStack error) errorOthers).

(** [!result.errors.length], for an array. *)
Definition isEmptyArray (v : JsValue) : bool :=
  match v with
  | JArr [] => true
  | _ => false
  end.

(** [parseErrorResponseAsync] *)
Definition parseErrorResponseAsync (response : Response) : Outcome Error :=
  let textBody := textBody response in
  match parsed response with
  | None => Returns (getTextResponseErrorAsync response textBody)
  | Some result =>
      errors <~ get result "errors" ;;
      if negb (truthy errors) || negb (isArray errors) || isEmptyArray errors
      then
        let apiError := getTextResponseErrorAsync response textBody in
        Returns
          (mkError (message apiError) (statusCode apiError)
             (errorText apiError)
             (Some result)                    (* apiError.errorData = result *)
             (code apiError) (details apiError) (serverStack apiError)
             (others apiError))
      else getErrorFromResult response result
  end.

(** [requestAsync], once [fetch] has resolved with [response]. *)
Definition requestAsync (response : Response) : Outcome JsValue :=
  if negb (status response =? 200) then
    apiError <~ parseErrorResponseAsync response ;;
    Throws (ThrowError apiError)
  else
    match parsed response with
    | None =>
        Throws (ThrowError
                  (getTextResponseErrorAsync response (textBody response)))
    | Some result =>
        errors <~ get result "errors" ;;
        if truthy errors then
          apiError <~ getErrorFromResult response result ;;
          Throws (ThrowError apiError)
        else get result "data"
    end.

(** [(error) => error.statusCode === 429] *)
Definition shouldRetry (error : Thrown) : bool :=
  match error with
  | ThrowError e =>
      match statusCode e with
      | Some c => c =? 429
      | None => false
      end
  | ThrowTypeError _ => false
  end.

(** The [errors] property of a parsed body other than [null]. *)
Definition errorsOf (result : JsValue) : JsValue :=
  match result with
  | JObj props => lookupProperty "errors" props
  | _ => JUndefined
  end.

(** The [data] property of a parsed body other than [null]. *)
Definition dataOf (result : JsValue) : JsValue :=
  match result with
  | JObj props => lookupProperty "data" props
  | _ => JUndefined
  end.

End Untyped.

(** *** Bodies of the declared type, as parsed values

    The object [JSON.parse] returns for an error entry, an envelope and a
    response of the declared types: a property that is absent in the
    typed value is absent in the object. *)

Definition entryValue (entry : ApiResultError) : JsValue :=
  JObj ([("message", JStr (message entry)); ("code", JStr (code entry))]
        ++ match details entry with
           | JUndefined => []
           | d => [("details", d)]
           end
        ++ match stack entry with
           | Some s => [("stack", JStr s)]
           | None => []
           end).

Definition resultValue (result : ApiResult) : JsValue :=
  JObj (match errors result with
        | Some entries => [("errors", JArr (map entryValue entries))]
        | None => []
        end
        ++ match result_data result with
           | JUndefined => []
           | d => [("data", d)]
           end).

Definition untypedResponse (response : Response) : Untyped.Response :=
  {| Untyped.status := status response;
     Untyped.textBody := textBody response;
     Untyped.parsed := option_map resultValue (jsonBody response) |}.

(** The same error, its fields read as values. *)
Fixpoint untypedError (e : ExtensibleError) : Untyped.Error :=
  {| Untyped.message := err_message e;
     Untyped.statusCode := statusCode e;
     Untyped.errorText := errorText e;
     Untyped.errorData := option_map resultValue (err_errorData e);
     Untyped.code := match err_code e with
                     | Some c => JStr c
                     | None => JUndefined
                     end;
     Untyped.details := err_details e;
     Untyped.serverStack := option_map JStr (serverStack e);
     Untyped.others :=
       match others e with
       | Some siblings => Some (map untypedError siblings)
       | None => None
       end |}.

(** A response with status 500 and the body [{}]. *)
Definition emptyObjectBody : Untyped.Response :=
  {| Untyped.status := 500;
     Untyped.textBody := "{}";
     Untyped.parsed := Some (JObj []) |}.

(** A response with status 502 and a body that is not JSON. *)
Definition gatewayPage : Untyped.Response :=
  {| Untyped.status := 502;
     Untyped.textBody := "<html>";
     Untyped.parsed := None |}.

(** * Properties of the chunker *)

Lemma chunk_limit_pos : 0 < PUSH_NOTIFICATION_CHUNK_LIMIT.
Proof. unfold PUSH_NOTIFICATION_CHUNK_LIMIT; lia. Qed.

(** Case analysis on the test [n >= PUSH_NOTIFICATION_CHUNK_LIMIT]. *)
Ltac limit_reached n :=
  destruct (Nat.leb_spec PUSH_NOTIFICATION_CHUNK_LIMIT n).

(** The inner loop, from a counter below the limit: either the limit is
    never reached and the tokens pile up in [partialTo], or the tokens
    split into a piece [f1] that fills the open batch, pieces [mids] that
    fill a batch each, and a rest that stays in [partialTo]. *)
Lemma forEachRecipient_shape (m : ExpoPushMessage) :
  forall tos st p,
    chunkMessagesCount st < PUSH_NOTIFICATION_CHUNK_LIMIT ->
    (chunkMessagesCount st + length tos < PUSH_NOTIFICATION_CHUNK_LIMIT /\
     forEachRecipient m tos st p =
       ({| chunks := chunks st; chunk := chunk st;
           chunkMessagesCount := chunkMessagesCount st + length tos |},
        p ++ tos))
    \/
    (exists f1 mids p',
        f1 <> [] /\
        tos = f1 ++ concat mids ++ p' /\
        chunkMessagesCount st + length f1 = PUSH_NOTIFICATION_CHUNK_LIMIT /\
        Forall (fun f => length f = PUSH_NOTIFICATION_CHUNK_LIMIT) mids /\
        length p' < PUSH_NOTIFICATION_CHUNK_LIMIT /\
        forEachRecipient m tos st p =
          ({| chunks := chunks st
                         ++ (chunk st ++ [withTo m (p ++ f1)])
                         :: map (fun f => [withTo m f]) mids;
              chunk := [];
              chunkMessagesCount := length p' |},
           p')).
Proof.
  induction tos as [|r tos IH]; intros st p Hlt.
  - left. split; [cbn [length]; lia|]. cbn. rewrite app_nil_r, Nat.add_0_r.
    destruct st; reflexivity.
  - cbn [forEachRecipient].
    destruct (Nat.leb_spec PUSH_NOTIFICATION_CHUNK_LIMIT (S (chunkMessagesCount st)))
      as [Hcap|Hno].
    + (* the batch is closed at [r] *)
      right.
      pose proof chunk_limit_pos as Hpos.
      destruct (IH {| chunks := chunks st ++ [chunk st ++ [withTo m (p ++ [r])]];
                      chunk := []; chunkMessagesCount := 0 |} [])
        as [[Hfit Heq]|(f1 & mids & p' & Hne & Hsplit & Hfill & Hmids & Hp' & Heq)];
        [cbn; lia| |].
      * exists [r], [], tos. cbn in Hfit, Heq.
        repeat split; try easy; cbn; try lia.
      * exists [r], (f1 :: mids), p'. cbn in Hfill, Heq.
        repeat split; try easy; cbn; try lia.
        -- now rewrite Hsplit, app_assoc.
        -- constructor; [lia|assumption].
        -- rewrite Heq. now rewrite <- app_assoc.
    + (* the batch stays open *)
      destruct (IH {| chunks := chunks st; chunk := chunk st;
                      chunkMessagesCount := S (chunkMessagesCount st) |} (p ++ [r]))
        as [[Hfit Heq]|(f1 & mids & p' & Hne & Hsplit & Hfill & Hmids & Hp' & Heq)];
        [cbn; lia| |].
      * left. cbn in Hfit, Heq. split; [cbn; lia|].
        rewrite Heq, <- app_assoc. cbn.
        now rewrite Nat.add_succ_r.
      * right. exists (r :: f1), mids, p'. cbn in Hfill, Heq.
        repeat split; try easy; cbn; try lia.
        -- now rewrite Hsplit.
        -- rewrite Heq, <- app_assoc. reflexivity.
Qed.

(** One message with a list of recipients. *)
Lemma forEachMessage_many (st : ChunkState) (m : ExpoPushMessage) tos :
  to m = ToMany tos ->
  chunkMessagesCount st < PUSH_NOTIFICATION_CHUNK_LIMIT ->
  (chunkMessagesCount st + length tos < PUSH_NOTIFICATION_CHUNK_LIMIT /\
   forEachMessage st m =
     {| chunks := chunks st;
        chunk := chunk st ++ match tos with [] => [] | _ => [withTo m tos] end;
        chunkMessagesCount := chunkMessagesCount st + length tos |})
  \/
  (exists f1 mids p',
      f1 <> [] /\
      tos = f1 ++ concat mids ++ p' /\
      chunkMessagesCount st + length f1 = PUSH_NOTIFICATION_CHUNK_LIMIT /\
      Forall (fun f => length f = PUSH_NOTIFICATION_CHUNK_LIMIT) mids /\
      length p' < PUSH_NOTIFICATION_CHUNK_LIMIT /\
      forEachMessage st m =
        {| chunks := chunks st
                       ++ (chunk st ++ [withTo m f1])
                       :: map (fun f => [withTo m f]) mids;
           chunk := match p' with [] => [] | _ => [withTo m p'] end;
           chunkMessagesCount := length p' |}).
Proof.
  intros Hto Hlt. unfold forEachMessage. rewrite Hto.
  destruct (forEachRecipient_shape m tos st [] Hlt)
    as [[Hfit Heq]|(f1 & mids & p' & Hne & Hsplit & Hfill & Hmids & Hp' & Heq)];
    rewrite Heq; cbn [app].
  - left. split; [assumption|].
    destruct tos as [|t tos]; cbn [length Nat.eqb negb chunks chunk chunkMessagesCount].
    + rewrite Nat.add_0_r in *.
      limit_reached (chunkMessagesCount st); [lia|]. now rewrite app_nil_r.
    + limit_reached (chunkMessagesCount st + S (length tos));
        [cbn in Hfit; lia|].
      reflexivity.
  - right. exists f1, mids, p'. repeat split; try assumption.
    destruct p' as [|t p']; cbn [length Nat.eqb negb chunks chunk chunkMessagesCount].
    + pose proof chunk_limit_pos.
      limit_reached 0; [lia|reflexivity].
    + limit_reached (S (length p')); [cbn in Hp'; lia|reflexivity].
Qed.

(** One message with a single recipient. *)
Lemma forEachMessage_one (st : ChunkState) (m : ExpoPushMessage) t :
  to m = ToOne t ->
  forEachMessage st m =
    if PUSH_NOTIFICATION_CHUNK_LIMIT <=? S (chunkMessagesCount st) then
      {| chunks := chunks st ++ [chunk st ++ [m]];
         chunk := [];
         chunkMessagesCount := 0 |}
    else
      {| chunks := chunks st;
         chunk := chunk st ++ [m];
         chunkMessagesCount := S (chunkMessagesCount st) |}.
Proof.
  intros Hto. unfold forEachMessage. rewrite Hto. reflexivity.
Qed.

(** *** Flattening lemmas *)

Lemma batchRecipients_app (a b : list ExpoPushMessage) :
  batchRecipients (a ++ b) = batchRecipients a ++ batchRecipients b.
Proof. apply flat_map_app. Qed.

Lemma allRecipients_app (a b : list (list ExpoPushMessage)) :
  allRecipients (a ++ b) = allRecipients a ++ allRecipients b.
Proof. apply flat_map_app. Qed.

Lemma allRecipients_cons (b : list ExpoPushMessage) bs :
  allRecipients (b :: bs) = batchRecipients b ++ allRecipients bs.
Proof. reflexivity. Qed.

Lemma batchRecipients_single (m : ExpoPushMessage) :
  batchRecipients [m] = recipientsOf m.
Proof. cbn. apply app_nil_r. Qed.

Lemma recipientsOf_withTo (m : ExpoPushMessage) f :
  recipientsOf (withTo m f) = f.
Proof. reflexivity. Qed.

Lemma allRecipients_fragments (m : ExpoPushMessage) mids :
  allRecipients (map (fun f => [withTo m f]) mids) = concat mids.
Proof.
  induction mids as [|f mids IH]; [reflexivity|].
  cbn [map concat]. rewrite allRecipients_cons, batchRecipients_single, IH.
  reflexivity.
Qed.

Create Rewrite HintDb flatten.
#[local] Hint Rewrite batchRecipients_app allRecipients_app allRecipients_cons
  batchRecipients_single recipientsOf_withTo allRecipients_fragments
  length_app : flatten.

(** *** The loop invariant *)

Lemma initial_inv : ChunkInv initialChunkState.
Proof.
  split; cbn; auto using chunk_limit_pos.
Qed.

(** What one message does to the state, in terms of recipients only:
    either it is appended to the open batch, or it closes the open batch
    with [x], emits full batches [more] and leaves [ch'] open. *)
Lemma forEachMessage_cases (st : ChunkState) (m : ExpoPushMessage) :
  chunkMessagesCount st < PUSH_NOTIFICATION_CHUNK_LIMIT ->
  (exists add,
      chunkMessagesCount st + length (recipientsOf m)
        < PUSH_NOTIFICATION_CHUNK_LIMIT /\
      forEachMessage st m =
        {| chunks := chunks st;
           chunk := chunk st ++ add;
           chunkMessagesCount :=
             chunkMessagesCount st + length (recipientsOf m) |} /\
      batchRecipients add = recipientsOf m /\
      Forall hasRecipients add)
  \/
  (exists x more ch',
      forEachMessage st m =
        {| chunks := chunks st ++ (chunk st ++ [x]) :: more;
           chunk := ch';
           chunkMessagesCount := length (batchRecipients ch') |} /\
      chunkMessagesCount st + length (recipientsOf x)
        = PUSH_NOTIFICATION_CHUNK_LIMIT /\
      hasRecipients x /\
      Forall (fun b => length (batchRecipients b)
                       = PUSH_NOTIFICATION_CHUNK_LIMIT) more /\
      Forall (Forall hasRecipients) more /\
      length (batchRecipients ch') < PUSH_NOTIFICATION_CHUNK_LIMIT /\
      Forall hasRecipients ch' /\
      recipientsOf x ++ allRecipients more ++ batchRecipients ch'
        = recipientsOf m).
Proof.
  intros Hlt. pose proof chunk_limit_pos as Hpos.
  destruct (to m) as [t|tos] eqn:Hto.
  - assert (Hrec : recipientsOf m = [t]) by (unfold recipientsOf; now rewrite Hto).
    rewrite !Hrec. rewrite (forEachMessage_one st m Hto).
    limit_reached (S (chunkMessagesCount st)).
    + right. exists m, [], []. unfold hasRecipients, recipientsOf.
      rewrite Hto. cbn. repeat split; auto; try lia; easy.
    + left. exists [m]. rewrite batchRecipients_single.
      unfold hasRecipients, recipientsOf. rewrite Hto. cbn [length].
      rewrite Nat.add_1_r. repeat split; auto; try lia.
      constructor; [|constructor]. rewrite Hto. easy.
  - assert (Hrec : recipientsOf m = tos) by (unfold recipientsOf; now rewrite Hto).
    rewrite !Hrec.
    destruct (forEachMessage_many st m Hto Hlt)
      as [[Hfit Heq]|(f1 & mids & p' & Hne & Hsplit & Hfill & Hmids & Hp' & Heq)].
    + left. exists (match tos with [] => [] | _ => [withTo m tos] end).
      repeat split; auto.
      * destruct tos; [reflexivity|]. now rewrite batchRecipients_single.
      * destruct tos; constructor; [|constructor]. unfold hasRecipients. easy.
    + right.
      exists (withTo m f1), (map (fun f => [withTo m f]) mids),
        (match p' with [] => [] | _ => [withTo m p'] end).
      assert (Hch : batchRecipients match p' with [] => [] | _ => [withTo m p'] end = p').
      { destruct p'; [reflexivity|]. now rewrite batchRecipients_single. }
      rewrite Hch. autorewrite with flatten.
      repeat split; auto.
      * apply Forall_map. eapply Forall_impl; [|exact Hmids].
        intros f Hf. cbn beta. now rewrite batchRecipients_single.
      * apply Forall_map. eapply Forall_impl; [|exact Hmids].
        intros f Hf. constructor; [|constructor].
        unfold hasRecipients. rewrite recipientsOf_withTo.
        destruct f; [cbn in Hf; lia|easy].
      * destruct p'; constructor; [|constructor]. unfold hasRecipients. easy.
Qed.

Lemma forEachMessage_inv (st : ChunkState) (m : ExpoPushMessage) :
  ChunkInv st -> ChunkInv (forEachMessage st m).
Proof.
  intros [Hlt Hcount Hopen Hfull Hclosed].
  destruct (forEachMessage_cases st m Hlt)
    as [(add & Hfit & Heq & Hadd & Hne)
       |(x & more & ch' & Heq & Hfill & Hx & Hmore & Hmore' & Hch & Hch' & _)];
    rewrite Heq; split; cbn [chunks chunk chunkMessagesCount]; auto.
  - autorewrite with flatten. rewrite Hadd. lia.
  - apply Forall_app; auto.
  - apply Forall_app; split; auto. constructor; auto.
    autorewrite with flatten. lia.
  - apply Forall_app; split; auto. constructor; auto.
    apply Forall_app; auto.
Qed.

Lemma runMessages_cons (st : ChunkState) m ms :
  runMessages st (m :: ms) = runMessages (forEachMessage st m) ms.
Proof. reflexivity. Qed.

Lemma runMessages_app (st : ChunkState) ms1 ms2 :
  runMessages st (ms1 ++ ms2) = runMessages (runMessages st ms1) ms2.
Proof. apply fold_left_app. Qed.

Lemma runMessages_inv (messages : list ExpoPushMessage) :
  forall st, ChunkInv st -> ChunkInv (runMessages st messages).
Proof.
  induction messages as [|m ms IH]; intros st Hinv; [assumption|].
  cbn. apply IH. now apply forEachMessage_inv.
Qed.

Lemma forEachMessage_emitted (st : ChunkState) (m : ExpoPushMessage) :
  chunkMessagesCount st < PUSH_NOTIFICATION_CHUNK_LIMIT ->
  emitted (forEachMessage st m) = emitted st ++ recipientsOf m.
Proof.
  intros Hlt. unfold emitted.
  destruct (forEachMessage_cases st m Hlt)
    as [(add & _ & Heq & Hadd & _)|(x & more & ch' & Heq & _ & _ & _ & _ & _ & _ & Hrec)];
    rewrite Heq; cbn [chunks chunk]; autorewrite with flatten.
  - rewrite Hadd. now rewrite <- app_assoc.
  - rewrite <- Hrec. now rewrite <- !app_assoc.
Qed.

Lemma runMessages_emitted (messages : list ExpoPushMessage) :
  forall st, ChunkInv st ->
    emitted (runMessages st messages)
    = emitted st ++ flat_map recipientsOf messages.
Proof.
  induction messages as [|m ms IH]; intros st Hinv.
  - cbn. now rewrite app_nil_r.
  - rewrite runMessages_cons. cbn [flat_map].
    rewrite IH by now apply forEachMessage_inv.
    rewrite forEachMessage_emitted by apply Hinv.
    now rewrite <- app_assoc.
Qed.

Lemma finishChunks_recipients (st : ChunkState) :
  ChunkInv st -> allRecipients (finishChunks st) = emitted st.
Proof.
  intros Hinv. unfold finishChunks, emitted.
  destruct (Nat.eqb_spec (chunkMessagesCount st) 0) as [Hz|Hnz]; cbn [negb].
  - rewrite (inv_count Hinv) in Hz. apply length_zero_iff_nil in Hz.
    now rewrite Hz, app_nil_r.
  - autorewrite with flatten. cbn. now rewrite app_nil_r.
Qed.

(** Conservation of the recipient sequence, from any state of the loop. *)
Lemma finish_run_recipients (st : ChunkState) (messages : list ExpoPushMessage) :
  ChunkInv st ->
  allRecipients (finishChunks (runMessages st messages))
  = emitted st ++ flat_map recipientsOf messages.
Proof.
  intros Hinv. rewrite finishChunks_recipients by now apply runMessages_inv.
  now apply runMessages_emitted.
Qed.

(** The count of [_getActualMessageCount] is the length of the flattened
    recipient sequence. *)
Lemma getActualMessageCount_from (messages : list ExpoPushMessage) :
  forall total,
    fold_left
      (fun total message =>
         match to message with
         | ToMany tokens => total + length tokens
         | ToOne _ => S total
         end) messages total
    = total + length (flat_map recipientsOf messages).
Proof.
  induction messages as [|m ms IH]; intros total; cbn [fold_left flat_map].
  - cbn. lia.
  - rewrite IH, length_app. unfold recipientsOf at 2.
    destruct (to m); cbn [length]; lia.
Qed.

Lemma getActualMessageCount_length (messages : list ExpoPushMessage) :
  _getActualMessageCount messages = length (flat_map recipientsOf messages).
Proof. apply getActualMessageCount_from. Qed.

(** *** Closed batches are never touched again *)

Lemma forEachRecipient_prepend pre (m : ExpoPushMessage) :
  forall tos st p,
    forEachRecipient m tos (prependChunks pre st) p
    = (prependChunks pre (fst (forEachRecipient m tos st p)),
       snd (forEachRecipient m tos st p)).
Proof.
  induction tos as [|r tos IH]; intros st p; cbn [forEachRecipient].
  - reflexivity.
  - cbn [prependChunks chunkMessagesCount chunks chunk].
    destruct (PUSH_NOTIFICATION_CHUNK_LIMIT <=? S (chunkMessagesCount st)).
    + rewrite <- IH. unfold prependChunks; cbn. now rewrite app_assoc.
    + rewrite <- IH. reflexivity.
Qed.

Lemma forEachMessage_prepend pre (st : ChunkState) (m : ExpoPushMessage) :
  forEachMessage (prependChunks pre st) m
  = prependChunks pre (forEachMessage st m).
Proof.
  unfold forEachMessage. destruct (to m) as [t|tos].
  - cbn [prependChunks chunkMessagesCount chunks chunk].
    destruct (PUSH_NOTIFICATION_CHUNK_LIMIT <=? S (chunkMessagesCount st));
      unfold prependChunks; cbn; now rewrite ?app_assoc.
  - rewrite forEachRecipient_prepend.
    destruct (forEachRecipient m tos st []) as [st' p']. cbn [fst snd].
    destruct (negb (length p' =? 0));
      cbn [prependChunks chunkMessagesCount chunks chunk];
      destruct (PUSH_NOTIFICATION_CHUNK_LIMIT <=? chunkMessagesCount st');
      unfold prependChunks; cbn; now rewrite ?app_assoc.
Qed.

Lemma runMessages_prepend pre (messages : list ExpoPushMessage) :
  forall st,
    runMessages (prependChunks pre st) messages
    = prependChunks pre (runMessages st messages).
Proof.
  induction messages as [|m ms IH]; intros st; [reflexivity|].
  now rewrite !runMessages_cons, forEachMessage_prepend, IH.
Qed.

Lemma finishChunks_prepend pre (st : ChunkState) :
  finishChunks (prependChunks pre st) = pre ++ finishChunks st.
Proof.
  unfold finishChunks, prependChunks; cbn.
  destruct (negb (chunkMessagesCount st =? 0)); now rewrite ?app_assoc.
Qed.

Lemma finish_run_split (st : ChunkState) (messages : list ExpoPushMessage) :
  finishChunks (runMessages st messages)
  = chunks st
    ++ finishChunks
         (runMessages {| chunks := []; chunk := chunk st;
                         chunkMessagesCount := chunkMessagesCount st |}
            messages).
Proof.
  rewrite <- finishChunks_prepend, <- runMessages_prepend.
  unfold prependChunks; cbn. rewrite app_nil_r. now destruct st.
Qed.

(** A non-empty open batch is the head of the first batch produced from
    there on. *)
Lemma open_batch_head (messages : list ExpoPushMessage) :
  forall ch c,
    ChunkInv {| chunks := []; chunk := ch; chunkMessagesCount := c |} ->
    c <> 0 ->
    exists t bs,
      finishChunks
        (runMessages {| chunks := []; chunk := ch; chunkMessagesCount := c |}
           messages)
      = (ch ++ t) :: bs.
Proof.
  induction messages as [|m ms IH]; intros ch c Hinv Hc.
  - exists [], []. unfold finishChunks; cbn.
    destruct (Nat.eqb_spec c 0); [contradiction|]. now rewrite app_nil_r.
  - rewrite runMessages_cons.
    pose proof (forEachMessage_inv m Hinv) as Hinv'.
    destruct (forEachMessage_cases _ m (inv_lt Hinv))
      as [(add & Hfit & Heq & _)|(x & more & ch' & Heq & _)];
      rewrite Heq in *; cbn [chunks chunk chunkMessagesCount] in *.
    + destruct (IH _ _ Hinv') as (t & bs & Hout); [lia|].
      exists (add ++ t), bs. now rewrite Hout, app_assoc.
    + rewrite finish_run_split. cbn [chunks chunk chunkMessagesCount app].
      eauto.
Qed.

(** *** A message with more recipients than the limit

    From any state of the loop, such a message closes the open batch with
    a first fragment, fills whole batches with middle fragments, and its
    last fragment heads the batch that follows. *)
Lemma oversized_from_state (st : ChunkState) (m : ExpoPushMessage) ts post :
  ChunkInv st ->
  to m = ToMany ts ->
  PUSH_NOTIFICATION_CHUNK_LIMIT < length ts ->
  exists f1 mids fl t bs2,
    finishChunks (runMessages st (m :: post))
    = chunks st
        ++ (chunk st ++ [withTo m f1])
        :: map (fun f => [withTo m f]) mids
        ++ (withTo m fl :: t) :: bs2 /\
    ts = f1 ++ concat mids ++ fl /\
    f1 <> [] /\ fl <> [] /\
    Forall (fun f => length f = PUSH_NOTIFICATION_CHUNK_LIMIT) mids.
Proof.
  intros Hinv Hto Hbig. pose proof chunk_limit_pos as Hpos.
  rewrite runMessages_cons.
  destruct (forEachMessage_many st m Hto (inv_lt Hinv))
    as [[Hfit _]|(f1 & mids & p' & Hne & Hsplit & Hfill & Hmids & Hp' & Heq)];
    [lia|].
  rewrite finish_run_split, Heq. cbn [chunks chunk chunkMessagesCount].
  destruct p' as [|a p'].
  - (* the last token filled a batch: the last fragment is the last of [mids] *)
    destruct mids as [|f0 mids0] using rev_ind.
    { exfalso. subst ts. cbn in Hbig. rewrite app_nil_r in Hbig. lia. }
    clear IHmids0. apply Forall_app in Hmids as [Hmids0 Hf0].
    inversion Hf0 as [|? ? Hlen _]; subst.
    exists f1, mids0, f0, [],
      (finishChunks (runMessages initialChunkState post)).
    rewrite map_app, concat_app. cbn [map concat length].
    rewrite !app_nil_r. repeat split; auto.
    + rewrite <- app_assoc. cbn [app]. now rewrite <- app_assoc.
    + destruct f0; [cbn in Hlen; lia|easy].
  - assert (Hinv' : ChunkInv {| chunks := []; chunk := [withTo m (a :: p')];
                                chunkMessagesCount := length (a :: p') |}).
    { split; cbn [chunks chunk chunkMessagesCount]; auto.
      - now rewrite batchRecipients_single.
      - constructor; [|constructor]. unfold hasRecipients. easy. }
    destruct (open_batch_head post Hinv') as (t & bs & Hout); [easy|].
    exists f1, mids, (a :: p'), t, bs.
    rewrite Hout, <- app_assoc. repeat split; auto. easy.
Qed.

Lemma oversized_message_split (pre post : list ExpoPushMessage)
    (m : ExpoPushMessage) ts :
  to m = ToMany ts ->
  PUSH_NOTIFICATION_CHUNK_LIMIT < length ts ->
  exists bs1 h f1 mids fl t bs2,
    chunkPushNotifications (pre ++ m :: post)
    = bs1
        ++ (h ++ [withTo m f1])
        :: map (fun f => [withTo m f]) mids
        ++ (withTo m fl :: t) :: bs2 /\
    ts = f1 ++ concat mids ++ fl /\
    f1 <> [] /\ fl <> [] /\
    Forall (fun f => length f = PUSH_NOTIFICATION_CHUNK_LIMIT) mids /\
    allRecipients bs1 ++ batchRecipients h = flat_map recipientsOf pre /\
    batchRecipients t ++ allRecipients bs2 = flat_map recipientsOf post.
Proof.
  intros Hto Hbig.
  pose proof (runMessages_inv pre initial_inv) as Hinv.
  destruct (@oversized_from_state _ m ts post Hinv Hto Hbig)
    as (f1 & mids & fl & t & bs2 & Hout & Hsplit & Hf1 & Hfl & Hmids).
  exists (chunks (runMessages initialChunkState pre)),
    (chunk (runMessages initialChunkState pre)), f1, mids, fl, t, bs2.
  assert (Hpre : allRecipients (chunks (runMessages initialChunkState pre))
                 ++ batchRecipients (chunk (runMessages initialChunkState pre))
                 = flat_map recipientsOf pre).
  { change (emitted (runMessages initialChunkState pre)
            = flat_map recipientsOf pre).
    now rewrite runMessages_emitted by apply initial_inv. }
  unfold chunkPushNotifications. rewrite runMessages_app, Hout.
  repeat split; auto.
  pose proof (finish_run_recipients (m :: post) Hinv) as Hall.
  rewrite Hout in Hall. unfold emitted in Hall. cbn [flat_map] in Hall.
  assert (Hrec : recipientsOf m = ts) by (unfold recipientsOf; now rewrite Hto).
  rewrite Hrec in Hall.
  autorewrite with flatten in Hall.
  change (batchRecipients (withTo m fl :: t))
    with (fl ++ batchRecipients t) in Hall.
  rewrite Hsplit, <- !app_assoc in Hall.
  do 5 apply app_inv_head in Hall. exact Hall.
Qed.

Lemma batch_counts_sum (batches : list (list ExpoPushMessage)) :
  list_sum (map _getActualMessageCount batches)
  = length (allRecipients batches).
Proof.
  induction batches as [|b bs IH]; [reflexivity|].
  change (_getActualMessageCount b + list_sum (map _getActualMessageCount bs)
          = length (allRecipients (b :: bs))).
  autorewrite with flatten.
  now rewrite IH, getActualMessageCount_length.
Qed.

Lemma chunkPushNotifications_recipients (messages : list ExpoPushMessage) :
  allRecipients (chunkPushNotifications messages)
  = flat_map recipientsOf messages.
Proof.
  unfold chunkPushNotifications.
  now rewrite finish_run_recipients by apply initial_inv.
Qed.

(** C1. The recipient counts of the batches add up to the recipient
    count of the input (a list-valued recipient counted by its length, a
    scalar one as 1), and the recipients of the batches, concatenated in
    order, are the recipients of the input in their original order. *)
Theorem chunkPushNotifications_conserves_recipients
    (messages : list ExpoPushMessage) :
  list_sum (map _getActualMessageCount (chunkPushNotifications messages))
    = _getActualMessageCount messages
  /\ allRecipients (chunkPushNotifications messages)
     = flat_map recipientsOf messages.
Proof.
  split.
  - now rewrite batch_counts_sum, chunkPushNotifications_recipients,
      getActualMessageCount_length.
  - apply chunkPushNotifications_recipients.
Qed.

Lemma finishChunks_bounded (st : ChunkState) :
  ChunkInv st ->
  Forall (fun b => _getActualMessageCount b <= PUSH_NOTIFICATION_CHUNK_LIMIT)
    (finishChunks st).
Proof.
  intros [Hlt Hcount _ Hfull _].
  assert (Hclosed : Forall (fun b => _getActualMessageCount b
                                     <= PUSH_NOTIFICATION_CHUNK_LIMIT) (chunks st)).
  { eapply Forall_impl; [|exact Hfull].
    intros b Hb. rewrite getActualMessageCount_length.
    unfold batchRecipients in Hb. lia. }
  unfold finishChunks. destruct (negb (chunkMessagesCount st =? 0)); auto.
  apply Forall_app; split; auto. constructor; [|constructor].
  rewrite getActualMessageCount_length. unfold batchRecipients in Hcount. lia.
Qed.

Lemma finishChunks_hasRecipients (st : ChunkState) :
  ChunkInv st -> Forall (Forall hasRecipients) (finishChunks st).
Proof.
  intros [_ _ Hopen _ Hclosed]. unfold finishChunks.
  destruct (negb (chunkMessagesCount st =? 0)); auto.
  apply Forall_app; split; auto.
Qed.

(** C4. No batch holds more than 100 recipients; and a message whose own
    recipient list is longer than the limit is cut into at least two
    non-empty fragments that sit in consecutive batches (the first closes
    the batch that was open, the middle ones fill a batch each, the last
    heads the next batch) and that together carry all its recipients in
    order. *)
Theorem chunkPushNotifications_batch_limit (messages : list ExpoPushMessage) :
  Forall (fun batch => _getActualMessageCount batch
                       <= PUSH_NOTIFICATION_CHUNK_LIMIT)
    (chunkPushNotifications messages)
  /\ forall pre m post ts,
      messages = pre ++ m :: post ->
      to m = ToMany ts ->
      PUSH_NOTIFICATION_CHUNK_LIMIT < length ts ->
      exists bs1 h f1 mids fl t bs2,
        chunkPushNotifications messages
        = bs1
            ++ (h ++ [withTo m f1])
            :: map (fun f => [withTo m f]) mids
            ++ (withTo m fl :: t) :: bs2 /\
        f1 ++ concat mids ++ fl = ts /\
        f1 <> [] /\ fl <> [] /\
        allRecipients bs1 ++ batchRecipients h = flat_map recipientsOf pre /\
        batchRecipients t ++ allRecipients bs2 = flat_map recipientsOf post.
Proof.
  split.
  - apply finishChunks_bounded, runMessages_inv, initial_inv.
  - intros pre m post ts -> Hto Hbig.
    destruct (@oversized_message_split pre post m ts Hto Hbig)
      as (bs1 & h & f1 & mids & fl & t & bs2
          & Hout & Hsplit & H1 & H2 & _ & H3 & H4).
    exists bs1, h, f1, mids, fl, t, bs2. repeat split; auto.
Qed.

(** *** Fragments of one message *)

Lemma sameExceptTo_withTo (m : ExpoPushMessage) part :
  sameExceptTo (withTo m part) m.
Proof. repeat split. Qed.

Lemma placeFragments_snoc (fs : list ExpoPushMessage) fl t :
  placeFragments [] (fs ++ [fl]) t = map (fun f => [f]) fs ++ [fl :: t].
Proof.
  induction fs as [|f fs IH]; [reflexivity|].
  cbn [app placeFragments map]. rewrite <- IH.
  destruct (fs ++ [fl]) eqn:E; [|reflexivity].
  symmetry in E. now apply app_cons_not_nil in E.
Qed.

(** C7. Every fragment of a message whose recipient list is longer than
    the limit is the original message with only its recipient field
    replaced: the fragments sit in consecutive batches, each is
    [{...message, to: part}] for a non-empty part of the recipients, and
    all other fields (data, title, subtitle, body, sound, ttl, expiration,
    priority, badge, channelId, categoryId, mutableContent) are those of
    the original. *)
Theorem oversized_fragments_keep_fields (pre post : list ExpoPushMessage)
    (m : ExpoPushMessage) ts :
  to m = ToMany ts ->
  PUSH_NOTIFICATION_CHUNK_LIMIT < length ts ->
  exists bs1 h fragments t bs2,
    chunkPushNotifications (pre ++ m :: post)
    = bs1 ++ placeFragments h fragments t ++ bs2 /\
    2 <= length fragments /\
    flat_map recipientsOf fragments = ts /\
    Forall (fun f => sameExceptTo f m /\
                     exists part, part <> [] /\ f = withTo m part) fragments /\
    allRecipients bs1 ++ batchRecipients h = flat_map recipientsOf pre /\
    batchRecipients t ++ allRecipients bs2 = flat_map recipientsOf post.
Proof.
  intros Hto Hbig. pose proof chunk_limit_pos as Hpos.
  destruct (@oversized_message_split pre post m ts Hto Hbig)
    as (bs1 & h & f1 & mids & fl & t & bs2
        & Hout & Hsplit & H1 & H2 & Hmids & H3 & H4).
  exists bs1, h, (withTo m f1 :: map (withTo m) mids ++ [withTo m fl]), t, bs2.
  repeat split; auto.
  - rewrite Hout. f_equal. cbn [placeFragments].
    destruct (map (withTo m) mids ++ [withTo m fl]) eqn:E;
      [symmetry in E; now apply app_cons_not_nil in E|].
    rewrite <- E, placeFragments_snoc, map_map.
    cbn [app]. now rewrite <- app_assoc.
  - cbn [length]. rewrite length_app. cbn. lia.
  - cbn [flat_map]. rewrite flat_map_app, recipientsOf_withTo. cbn [flat_map].
    rewrite recipientsOf_withTo, app_nil_r, Hsplit. do 2 f_equal.
    clear. induction mids as [|f mids IH]; [reflexivity|].
    cbn [map flat_map concat]. now rewrite IH.
  - constructor; [split; [apply sameExceptTo_withTo|eauto]|].
    apply Forall_app; split.
    + apply Forall_map, Forall_forall. intros f Hf.
      split; [apply sameExceptTo_withTo|]. exists f. split; [|reflexivity].
      rewrite Forall_forall in Hmids. specialize (Hmids f Hf).
      destruct f; [cbn in Hmids; lia|easy].
    + constructor; [|constructor].
      split; [apply sameExceptTo_withTo|eauto].
Qed.

(** *** A message with an empty recipient list *)

Lemma forEachMessage_empty (st : ChunkState) (m : ExpoPushMessage) :
  to m = ToMany [] ->
  chunkMessagesCount st < PUSH_NOTIFICATION_CHUNK_LIMIT ->
  forEachMessage st m = st.
Proof.
  intros Hto Hlt.
  destruct (forEachMessage_many st m Hto Hlt)
    as [[_ Heq]|(f1 & mids & p' & Hne & Hsplit & _)].
  - rewrite Heq. cbn [length]. rewrite app_nil_r, Nat.add_0_r.
    now destruct st.
  - destruct f1; [contradiction|discriminate].
Qed.

(** C10. A message whose recipient field is the empty list leaves no
    trace in the output: the batches are those of the input without it,
    no emitted message has an empty recipient list, the message counts
    for 0 in [_getActualMessageCount], and the recipient counts of the
    batches still add up to the count of the input. *)
Theorem empty_recipient_list_dropped (pre post : list ExpoPushMessage)
    (m : ExpoPushMessage) :
  to m = ToMany [] ->
  chunkPushNotifications (pre ++ m :: post) = chunkPushNotifications (pre ++ post)
  /\ Forall (Forall hasRecipients) (chunkPushNotifications (pre ++ m :: post))
  /\ _getActualMessageCount [m] = 0
  /\ _getActualMessageCount (pre ++ m :: post)
     = _getActualMessageCount (pre ++ post)
  /\ list_sum (map _getActualMessageCount
                 (chunkPushNotifications (pre ++ m :: post)))
     = _getActualMessageCount (pre ++ m :: post).
Proof.
  intros Hto.
  assert (Hrec : recipientsOf m = [])
    by (unfold recipientsOf; now rewrite Hto).
  repeat split.
  - unfold chunkPushNotifications.
    rewrite !runMessages_app, runMessages_cons.
    rewrite forEachMessage_empty; auto.
    apply inv_lt, runMessages_inv, initial_inv.
  - apply finishChunks_hasRecipients, runMessages_inv, initial_inv.
  - unfold _getActualMessageCount; cbn. now rewrite Hto.
  - rewrite !getActualMessageCount_length, !flat_map_app. cbn [flat_map].
    now rewrite Hrec.
  - now rewrite batch_counts_sum, chunkPushNotifications_recipients,
      getActualMessageCount_length.
Qed.

(** *** Concrete runs of the chunker *)

Example chunk_two_scalars :
  chunkPushNotifications [simpleMessage (ToOne "a"); simpleMessage (ToOne "b")]
  = [[simpleMessage (ToOne "a"); simpleMessage (ToOne "b")]].
Proof. reflexivity. Qed.

Example chunk_big_message_sizes :
  map (map (fun f => length (recipientsOf f)))
    (chunkPushNotifications
       [simpleMessage (ToOne "a"); bigMessage; simpleMessage (ToOne "z")])
  = [[1; 99]; [100]; [51; 1]].
Proof. vm_compute. reflexivity. Qed.

Lemma chunkPushNotifications_batch_limit_witness :
  exists bs1 h f1 mids fl t bs2,
    chunkPushNotifications
      [simpleMessage (ToOne "a"); bigMessage; simpleMessage (ToOne "z")]
    = bs1
        ++ (h ++ [withTo bigMessage f1])
        :: map (fun f => [withTo bigMessage f]) mids
        ++ (withTo bigMessage fl :: t) :: bs2 /\
    f1 ++ concat mids ++ fl = manyTokens 250 /\
    f1 <> [] /\ fl <> [] /\
    allRecipients bs1 ++ batchRecipients h
      = flat_map recipientsOf [simpleMessage (ToOne "a")] /\
    batchRecipients t ++ allRecipients bs2
      = flat_map recipientsOf [simpleMessage (ToOne "z")].
Proof.
  apply (proj2 (chunkPushNotifications_batch_limit
                  [simpleMessage (ToOne "a"); bigMessage; simpleMessage (ToOne "z")])
           [simpleMessage (ToOne "a")] bigMessage [simpleMessage (ToOne "z")]
           (manyTokens 250)).
  - reflexivity.
  - reflexivity.
  - vm_compute. lia.
Defined.

Lemma oversized_fragments_keep_fields_witness :
  exists bs1 h fragments t bs2,
    chunkPushNotifications
      ([simpleMessage (ToOne "a")] ++ bigMessage :: [simpleMessage (ToOne "z")])
    = bs1 ++ placeFragments h fragments t ++ bs2 /\
    2 <= length fragments /\
    flat_map recipientsOf fragments = manyTokens 250 /\
    Forall (fun f => sameExceptTo f bigMessage /\
                     exists part, part <> [] /\ f = withTo bigMessage part)
      fragments /\
    allRecipients bs1 ++ batchRecipients h
      = flat_map recipientsOf [simpleMessage (ToOne "a")] /\
    batchRecipients t ++ allRecipients bs2
      = flat_map recipientsOf [simpleMessage (ToOne "z")].
Proof.
  apply (@oversized_fragments_keep_fields
           [simpleMessage (ToOne "a")] [simpleMessage (ToOne "z")]
           bigMessage (manyTokens 250)).
  - reflexivity.
  - vm_compute. lia.
Defined.

Lemma empty_recipient_list_dropped_witness :
  chunkPushNotifications aroundEmpty
  = chunkPushNotifications
      ([simpleMessage (ToOne "a")] ++ [simpleMessage (ToOne "z")])
  /\ Forall (Forall hasRecipients) (chunkPushNotifications aroundEmpty)
  /\ _getActualMessageCount [emptyMessage] = 0
  /\ _getActualMessageCount aroundEmpty
     = _getActualMessageCount
         ([simpleMessage (ToOne "a")] ++ [simpleMessage (ToOne "z")])
  /\ list_sum (map _getActualMessageCount (chunkPushNotifications aroundEmpty))
     = _getActualMessageCount aroundEmpty.
Proof.
  apply (@empty_recipient_list_dropped
           [simpleMessage (ToOne "a")] [simpleMessage (ToOne "z")]
           emptyMessage).
  reflexivity.
Defined.

(** * Properties of the response normalizer *)

Lemma getErrorFromResultError_fields (entry : ApiResultError) :
  err_message (getErrorFromResultError entry) = message entry /\
  err_code (getErrorFromResultError entry) = Some (code entry) /\
  err_details (getErrorFromResultError entry)
    = (if notNullish (details entry) then Some (details entry) else None) /\
  serverStack (getErrorFromResultError entry) = stack entry /\
  statusCode (getErrorFromResultError entry) = None /\
  others (getErrorFromResultError entry) = None.
Proof.
  unfold getErrorFromResultError.
  destruct (notNullish (details entry)), (stack entry); repeat split.
Qed.

(** C5. A response with status 200 whose parsed body has a non-empty
    [errors] list makes the request fail with an error built from the
    first entry: its message, code, details (when not null) and stack;
    the remaining entries, each turned into an error of its own, are
    attached in their order as [others] (no [others] when there is none);
    the status code is attached. *)
Theorem errors_in_ok_response (response : Response) (result : ApiResult)
    (first : ApiResultError) (rest : list ApiResultError) :
  status response = 200 ->
  jsonBody response = Some result ->
  errors result = Some (first :: rest) ->
  exists error,
    requestAsync (FetchResolved response) = Throw (ThrowError error) /\
    err_message error = message first /\
    err_code error = Some (code first) /\
    err_details error
      = (if notNullish (details first) then Some (details first) else None) /\
    serverStack error = stack first /\
    statusCode error = Some 200 /\
    others error
      = match rest with
        | [] => None
        | _ :: _ => Some (map getErrorFromResultError rest)
        end /\
    (forall siblings, others error = Some siblings ->
       map err_message siblings = map message rest /\
       map err_code siblings = map (fun e => Some (code e)) rest).
Proof.
  intros Hstatus Hjson Herrors.
  unfold requestAsync. rewrite Hstatus, Hjson, Herrors. cbn [Nat.eqb negb].
  unfold getErrorFromResult. rewrite Herrors, Hstatus. cbn [bind].
  destruct (getErrorFromResultError_fields first)
    as (Hm & Hc & Hd & Hs & _ & Ho).
  assert (Hothers :
            others (if negb (length rest =? 0)
                    then setOthers (map getErrorFromResultError rest)
                           (getErrorFromResultError first)
                    else getErrorFromResultError first)
            = match rest with
              | [] => None
              | _ :: _ => Some (map getErrorFromResultError rest)
              end).
  { destruct rest; [exact Ho|reflexivity]. }
  eexists. split; [reflexivity|].
  cbn [setStatusCode err_message err_code err_details serverStack statusCode
         others].
  rewrite Hothers.
  destruct rest as [|second rest]; cbn [length Nat.eqb negb];
    repeat split; auto; try discriminate.
  all: match goal with H : Some _ = Some _ |- _ => injection H as <- end.
  all: change (getErrorFromResultError second
               :: map getErrorFromResultError rest)
         with (map getErrorFromResultError (second :: rest)).
  all: rewrite !map_map.
  all: apply map_ext; intros e; apply getErrorFromResultError_fields.
Qed.

Lemma errors_in_ok_response_witness :
  exists error,
    requestAsync (FetchResolved (okResponse "{...}" twoErrors))
      = Throw (ThrowError error) /\
    err_message error = "bad" /\
    err_code error = Some "X" /\
    err_details error = None /\
    serverStack error = None /\
    statusCode error = Some 200 /\
    others error
      = Some [getErrorFromResultError
                (mkApiResultError "worse" "Y" JNull (Some "at f"))] /\
    (forall siblings, others error = Some siblings ->
       map err_message siblings = ["worse"] /\
       map err_code siblings = [Some "Y"]).
Proof.
  apply (@errors_in_ok_response (okResponse "{...}" twoErrors) twoErrors
           (mkApiResultError "bad" "X" JUndefined None)
           [mkApiResultError "worse" "Y" JNull (Some "at f")]);
    reflexivity.
Defined.

(** The fields of the error built from the text and the status. *)
Lemma getTextResponseErrorAsync_fields (response : Response) (text : string) :
  getTextResponseErrorAsync response text
  = {| err_message :=
         ("Expo responded with an error with status code "
          ++ numberToString (status response) ++ ": " ++ text)%string;
       statusCode := Some (status response);
       errorText := Some text;
       err_errorData := None; err_code := None; err_details := None;
       serverStack := None; others := None; err_data := None |}.
Proof. reflexivity. Qed.

(** * Properties of the sender *)

(** The success payload is returned exactly when it is an array of the
    expected length. *)
Lemma send_returns_iff (messages : list ExpoPushMessage)
    (fetch : nat -> FetchOutcome) (data : JsValue) :
  sendPushNotificationsAsync messages fetch = Return data
  <-> fst (sendRequest fetch) = Return data /\
      exists tickets,
        data = JArr tickets /\
        length tickets = _getActualMessageCount messages.
Proof.
  unfold sendPushNotificationsAsync, limitConcurrentRequests.
  destruct (fst (sendRequest fetch)) as [d|t]; cbn [bind].
  - split.
    + intros H.
      destruct d as [| |b|n|s|l|ps]; cbn in H;
        try (destruct (hasOwnProperty "toString" ps));
        try (destruct (toString (lookupProperty "length" ps)));
        try discriminate.
      destruct (Nat.eqb_spec (length l) (_getActualMessageCount messages));
        cbn in H; [|discriminate].
      injection H as <-. eauto.
    + intros [[= ->] (l & -> & Hlen)]. cbn.
      apply Nat.eqb_eq in Hlen. now rewrite Hlen.
  - split; [discriminate|]. intros [H _]. discriminate.
Qed.

(** An array of another length: the count-mismatch error, carrying the
    payload. *)
Lemma send_wrong_length (messages : list ExpoPushMessage)
    (fetch : nat -> FetchOutcome) (tickets : list JsValue) :
  fst (sendRequest fetch) = Return (JArr tickets) ->
  length tickets <> _getActualMessageCount messages ->
  sendPushNotificationsAsync messages fetch
  = Throw (ThrowError
             (setData (JArr tickets)
                (newError
                   ("Expected Expo to respond with "
                    ++ numberToString (_getActualMessageCount messages) ++ " "
                    ++ (if (_getActualMessageCount messages =? 1)%nat
                        then "ticket" else "tickets")
                    ++ " but got "
                    ++ integerToString (Z.of_nat (length tickets)))%string))).
Proof.
  intros Hreq Hlen. apply Nat.eqb_neq in Hlen.
  unfold sendPushNotificationsAsync, limitConcurrentRequests.
  rewrite Hreq. cbn. now rewrite Hlen.
Qed.

(** C2, at a payload that is not a list.  When the server answers 200
    with [{"data":null}] the call does fail, but not with the
    count-mismatch error carrying the payload: reading [data.length] for
    the message of that error throws a [TypeError] first. *)
Theorem send_null_payload_type_error :
  sendPushNotificationsAsync [simpleMessage (ToOne "ExponentPushToken[a]")]
    nullPayload
  = Throw (ThrowTypeError (ReadPropertyOfNullish JNull "length")).
Proof. reflexivity. Qed.

Example send_missing_payload_type_error :
  sendPushNotificationsAsync [simpleMessage (ToOne "ExponentPushToken[a]")]
    missingPayload
  = Throw (ThrowTypeError (ReadPropertyOfNullish JUndefined "length")).
Proof. reflexivity. Qed.

(** Any payload that is neither [null] nor [undefined], is not an array
    and converts to a string gives the count-mismatch error carrying it. *)
Lemma send_not_a_list (messages : list ExpoPushMessage)
    (fetch : nat -> FetchOutcome) (data l : JsValue) (got : string) :
  fst (sendRequest fetch) = Return data ->
  isArray data = false ->
  getLength data = Return l ->
  toString l = Return got ->
  exists error,
    sendPushNotificationsAsync messages fetch = Throw (ThrowError error) /\
    err_data error = Some data.
Proof.
  intros Hreq Harr Hlen Hstr.
  unfold sendPushNotificationsAsync, limitConcurrentRequests.
  rewrite Hreq. cbn [bind]. rewrite Harr, Hlen. cbn [negb orb bind].
  rewrite Hstr. cbn [bind]. eexists. split; reflexivity.
Qed.

Example send_one_ticket :
  let tickets :=
    JArr [JObj [("status", JStr "ok"); ("id", JStr "r1")]] in
  sendPushNotificationsAsync [simpleMessage (ToOne "ExponentPushToken[a]")]
    (fun _ => FetchResolved
                (okResponse "..." {| errors := None; result_data := tickets |}))
  = Return tickets.
Proof. reflexivity. Qed.

Example send_two_tickets_for_three :
  let tickets := JArr [JObj [("status", JStr "ok")]; JObj [("status", JStr "ok")]] in
  exists error,
    sendPushNotificationsAsync [simpleMessage (ToMany ["a"; "b"; "c"])]
      (fun _ => FetchResolved
                  (okResponse "..." {| errors := None; result_data := tickets |}))
    = Throw (ThrowError error)
    /\ err_message error = "Expected Expo to respond with 3 tickets but got 2"
    /\ err_data error = Some tickets.
Proof. eexists. repeat split. Qed.

(** * Properties of the retry policy *)

(** C3. The unit of work makes at most three attempts.  An attempt that
    fails with status code 429 is followed, while retries are left, by a
    wait of 1000 ms (after the first attempt) or 2000 ms (after the
    second) and a new attempt; after the third attempt its error
    propagates.  An attempt that fails with any other error ends the unit
    at once with that error. *)
Theorem send_retry_policy (fetch : nat -> FetchOutcome) :
  sendRequest fetch =
    match requestAsync (fetch 1) with
    | Return value => (Return value, [Attempt 1])
    | Throw error1 =>
        if negb (shouldRetry error1) then (Throw error1, [Attempt 1])
        else
          match requestAsync (fetch 2) with
          | Return value =>
              (Return value, [Attempt 1; Wait 1000; Attempt 2])
          | Throw error2 =>
              if negb (shouldRetry error2)
              then (Throw error2, [Attempt 1; Wait 1000; Attempt 2])
              else
                (requestAsync (fetch 3),
                 [Attempt 1; Wait 1000; Attempt 2; Wait 2000; Attempt 3])
          end
    end
  /\ (forall error, shouldRetry error = true <-> thrownStatusCode error = Some 429).
Proof.
  split.
  - unfold sendRequest, promiseRetry. cbn [retries REQUEST_RETRY_OPTIONS].
    cbn [retryLoop].
    destruct (requestAsync (fetch 1)) as [v1|e1]; [reflexivity|].
    destruct (shouldRetry e1); cbn [negb]; [|reflexivity].
    destruct (requestAsync (fetch 2)) as [v2|e2]; [reflexivity|].
    destruct (shouldRetry e2); cbn [negb]; [|reflexivity].
    destruct (requestAsync (fetch 3)) as [v3|e3]; [reflexivity|].
    destruct (shouldRetry e3); reflexivity.
  - intros error. unfold shouldRetry.
    destruct (thrownStatusCode error) as [c|]; [|split; discriminate].
    rewrite Nat.eqb_eq. split; [now intros ->|now intros [= ->]].
Qed.

Lemma send_retry_policy_witness :
  sendRequest always429
  = (requestAsync (always429 3),
     [Attempt 1; Wait 1000; Attempt 2; Wait 2000; Attempt 3])
  /\ shouldRetry (ThrowError (getTextResponseErrorAsync
                                (mkResponse 429 "slow" None) "slow")) = true.
Proof.
  split.
  - rewrite (proj1 (send_retry_policy always429)). reflexivity.
  - apply (proj2 (send_retry_policy always429)). reflexivity.
Defined.

Example send_retry_stops_on_other_status :
  sendRequest (fun n => FetchResolved
                          (mkResponse (if n =? 1 then 429 else 500) "no" None))
  = (requestAsync (FetchResolved (mkResponse 500 "no" None)),
     [Attempt 1; Wait 1000; Attempt 2]).
Proof. reflexivity. Qed.

(** * Properties of the token predicate *)

Lemma startsWith_spec (prefix : string) :
  forall s, startsWith s prefix = true <-> StartsWith s prefix.
Proof.
  unfold StartsWith.
  induction prefix as [|p prefix IH]; intros s; cbn [startsWith].
  - split; [intros _; now exists s|reflexivity].
  - destruct s as [|c s]; cbn [append].
    + split; [discriminate|]. intros [rest H]. discriminate.
    + rewrite andb_true_iff, Ascii.eqb_eq, IH. split.
      * intros [-> [rest ->]]. now exists rest.
      * intros [rest [= -> ->]]. split; [reflexivity|now exists rest].
Qed.

Lemma endsWith_spec (suffix : string) :
  forall s, endsWith s suffix = true <-> EndsWith s suffix.
Proof.
  unfold EndsWith.
  induction s as [|c s IH]; cbn [endsWith]; rewrite orb_true_iff, String.eqb_eq.
  - split.
    + intros [<-|H]; [now exists ""|discriminate].
    + intros [front H]. left.
      destruct front; cbn in H; [assumption|discriminate].
  - rewrite IH. split.
    + intros [<-|[front ->]]; [now exists ""|now exists (String c front)].
    + intros [front H]. destruct front as [|c' front]; cbn in H.
      * now left.
      * injection H as -> ->. right. now exists front.
Qed.

Section CharacterClass.

Variable accepts : ascii -> bool.

Lemma matchClass_spec (count : nat) :
  forall s s',
    matchClass accepts count s = Some s'
    <-> exists g, s = (g ++ s')%string /\ Group accepts count g.
Proof.
  unfold Group.
  induction count as [|count IH]; intros s s'; cbn [matchClass].
  - split.
    + intros [= ->]. exists "". auto.
    + intros (g & -> & Hlen & _). destruct g; [reflexivity|discriminate].
  - destruct s as [|c s].
    + split; [discriminate|]. intros (g & H & Hlen & _).
      destruct g; discriminate.
    + split.
      * destruct (accepts c) eqn:Hc; [|discriminate].
        intros H. apply IH in H as (g & -> & Hlen & Hall).
        exists (String c g). cbn. rewrite Hc, Hlen. auto.
      * intros (g & H & Hlen & Hall).
        destruct g as [|c' g]; [discriminate|].
        cbn in H, Hlen, Hall. injection H as -> ->. injection Hlen as Hlen.
        apply andb_true_iff in Hall as [-> Hall].
        apply IH. now exists g.
Qed.

End CharacterClass.

Lemma regexTest_spec (pieces : list RegexPiece) :
  forall s, regexTest pieces s = true <-> Matches pieces s.
Proof.
  induction pieces as [|[accepts count|c] rest IH]; intros s;
    cbn [regexTest Matches].
  - destruct s; split; congruence.
  - destruct (matchClass accepts count s) as [s'|] eqn:Hm.
    + apply matchClass_spec in Hm as (g & -> & Hg). rewrite IH. split.
      * intros H. now exists g, s'.
      * intros (g' & s'' & Heq & [Hlen' Hall'] & Hrest).
        destruct Hg as [Hlen Hall].
        assert (g' = g /\ s'' = s') as [-> ->]; [|assumption].
        clear - Heq Hlen Hlen'. subst count.
        revert g' Hlen' Heq.
        induction g as [|a g IHg]; intros [|a' g'] Hlen' Heq;
          cbn in *; try discriminate; auto.
        injection Heq as -> Heq. injection Hlen' as Hlen'.
        destruct (IHg g' Hlen' Heq) as [-> ->]. auto.
    + split; [discriminate|].
      intros (g & s' & -> & Hg & _).
      assert (matchClass accepts count (g ++ s') = Some s') as H
          by (apply matchClass_spec; now exists g).
      congruence.
  - destruct s as [|c' s].
    + split; [discriminate|]. intros (s' & H & _). discriminate.
    + rewrite andb_true_iff, Ascii.eqb_eq, IH. split.
      * intros [-> H]. now exists s.
      * intros (s' & [= -> ->] & H). auto.
Qed.

Lemma append_empty_r (s : string) : (s ++ "")%string = s.
Proof. induction s; cbn; congruence. Qed.

Lemma uuid_regex_spec (s : string) :
  regexTest UUID_REGEX s = true <-> UuidShaped letterOrDigit s.
Proof.
  rewrite regexTest_spec. unfold UuidShaped, UUID_REGEX. cbn [Matches]. split.
  - intros (g1 & s1 & -> & H1 & s2 & -> & g2 & s3 & -> & H2 & s4 & -> &
            g3 & s5 & -> & H3 & s6 & -> & g4 & s7 & -> & H4 & s8 & -> &
            g5 & s9 & -> & H5 & ->).
    exists g1, g2, g3, g4, g5. rewrite append_empty_r. auto 10.
  - intros (g1 & g2 & g3 & g4 & g5 & -> & H1 & H2 & H3 & H4 & H5).
    exists g1; eexists; split; [reflexivity|]; split; [assumption|].
    eexists; split; [reflexivity|].
    exists g2; eexists; split; [reflexivity|]; split; [assumption|].
    eexists; split; [reflexivity|].
    exists g3; eexists; split; [reflexivity|]; split; [assumption|].
    eexists; split; [reflexivity|].
    exists g4; eexists; split; [reflexivity|]; split; [assumption|].
    eexists; split; [reflexivity|].
    exists g5, "". rewrite append_empty_r. auto.
Qed.

Lemma bracketed_spec (s : string) :
  (startsWith s "ExponentPushToken[" || startsWith s "ExpoPushToken[")
  && endsWith s "]" = true
  <-> Bracketed s.
Proof.
  unfold Bracketed.
  now rewrite andb_true_iff, orb_true_iff, !startsWith_spec, endsWith_spec.
Qed.

(** C8, as stated, fails: a string of five hyphen-joined groups of the
    letter z is accepted, though z is no hexadecimal digit. *)
Lemma isExpoPushToken_hex_counterexample :
  isExpoPushToken (JStr lettersOnly) = true /\ ~ SpecToken (JStr lettersOnly).
Proof.
  split; [reflexivity|].
  intros (s & [= <-] & [[[H|H] _]|H]).
  - destruct H as [rest H]. discriminate H.
  - destruct H as [rest H]. discriminate H.
  - destruct H as (g1 & g2 & g3 & g4 & g5 & Heq & [Hlen Hall] & _).
    destruct g1 as [|c g1]; [discriminate Hlen|].
    cbn in Heq. injection Heq as <- _. discriminate Hall.
Qed.

(** C8, amended. [isExpoPushToken] is true exactly for a string that
    either starts with [ExponentPushToken[] or [ExpoPushToken[] and ends
    with []], or consists of five groups of 8, 4, 4, 4 and 12 ASCII letters
    (of either case) or decimal digits joined by hyphens; it is false for
    every value that is not a string. *)
Theorem isExpoPushToken_spec (token : JsValue) :
  (isExpoPushToken token = true
   <-> exists s, token = JStr s /\ (Bracketed s \/ UuidShaped letterOrDigit s))
  /\ ((forall s, token <> JStr s) -> isExpoPushToken token = false).
Proof.
  split.
  - destruct token as [| |b|n|s|l|ps]; cbn [isExpoPushToken];
      try (split; [discriminate|intros (s' & H & _); discriminate H]).
    rewrite orb_true_iff, bracketed_spec, uuid_regex_spec. split.
    + intros H. now exists s.
    + intros (s' & [= <-] & H). exact H.
  - intros Hns. destruct token; try reflexivity. now destruct (Hns s).
Qed.

Lemma isExpoPushToken_spec_witness :
  isExpoPushToken (JNum 3) = false.
Proof.
  apply (proj2 (isExpoPushToken_spec (JNum 3))). intros s. discriminate.
Defined.

Example isExpoPushToken_examples :
  map isExpoPushToken
    [ JStr "ExponentPushToken[abc]"; JStr "ExpoPushToken[]";
      JStr "ExpoPushToken["; JStr "0123ABCD-0a1b-2c3d-4e5f-0123456789ab";
      JStr "0123ABCD-0a1b-2c3d-4e5f-0123456789ab ";
      JStr "0123ABCD-0a1b-2c3d-4e5f-0123456789a"; JNum 3; JNull ]
  = [true; true; false; true; false; false; false; false].
Proof. reflexivity. Qed.

(** * Properties of the concurrency limit *)

Lemma create_inv (limit : nat) : LimiterInv (Limiter.create limit).
Proof. split; cbn; [lia|reflexivity|congruence]. Qed.

Lemma startNext_inv (s : Limiter.State) :
  length (Limiter.running s) <= Limiter.concurrency s ->
  Limiter.submitted s = Limiter.begun s ++ map fst (Limiter.pending s) ->
  (tl (Limiter.pending s) <> [] ->
   Limiter.concurrency s <= S (length (Limiter.running s))) ->
  LimiterInv (Limiter.startNext s).
Proof.
  intros Hcap Hfifo Hweak. unfold Limiter.startNext.
  destruct (Limiter.pending s) as [|unit queue] eqn:Hp.
  - split; [assumption|now rewrite Hp|congruence].
  - destruct (Nat.ltb_spec (length (Limiter.running s)) (Limiter.concurrency s)).
    + split; cbn.
      * rewrite length_app. cbn. lia.
      * rewrite Hfifo. cbn. now rewrite <- app_assoc.
      * intros Hq. rewrite length_app. cbn. specialize (Hweak Hq). lia.
    + split; [assumption|now rewrite Hp|intros _; lia].
Qed.

Lemma advance_outcome (id : nat) :
  forall units units' settled,
    Limiter.advance id units = Some (units', settled) ->
    if settled then S (length units') = length units
    else map fst units' = map fst units.
Proof.
  induction units as [|[id' todo] rest IH]; intros units' settled H;
    cbn [Limiter.advance] in H; [discriminate|].
  destruct (id' =? id).
  - destruct todo as [|e [|e' todo]]; injection H as <- <-; reflexivity.
  - destruct (Limiter.advance id rest) as [[rest' settled']|]; [|discriminate].
    injection H as <- <-. specialize (IH _ _ eq_refl).
    destruct settled'; cbn; [now rewrite IH|now rewrite IH].
Qed.

Lemma step_inv (s : Limiter.State) (e : Limiter.Event) :
  LimiterInv s -> LimiterInv (Limiter.step s e).
Proof.
  intros [Hcap Hfifo Hwait]. destruct e as [id fetch|id]; cbn [Limiter.step].
  - apply startNext_inv; cbn.
    + assumption.
    + now rewrite Hfifo, map_app, <- app_assoc.
    + intros Hq. destruct (Limiter.pending s) as [|u q]; [now cbn in Hq|].
      rewrite Hwait by congruence. lia.
  - destruct (Limiter.advance id (Limiter.running s)) as [[running' settled]|]
      eqn:Hadv; [|now split].
    apply advance_outcome in Hadv. destruct settled.
    + apply startNext_inv; cbn; [lia|assumption|].
      intros Hq. rewrite <- Hwait; [lia|].
      intros Hnil. now rewrite Hnil in Hq.
    + assert (Hlen : length running' = length (Limiter.running s)).
      { apply (f_equal (@length _)) in Hadv. now rewrite !length_map in Hadv. }
      split; cbn; [lia|assumption|]. intros Hp. rewrite Hlen. auto.
Qed.

Lemma run_inv (events : list Limiter.Event) :
  forall s, LimiterInv s -> LimiterInv (Limiter.run s events).
Proof.
  induction events as [|e events IH]; intros s Hinv; [assumption|].
  cbn. apply IH. now apply step_inv.
Qed.

Lemma startNext_concurrency (s : Limiter.State) :
  Limiter.concurrency (Limiter.startNext s) = Limiter.concurrency s.
Proof.
  unfold Limiter.startNext. destruct (Limiter.pending s); [reflexivity|].
  now destruct (length (Limiter.running s) <? Limiter.concurrency s).
Qed.

Lemma step_concurrency (s : Limiter.State) (e : Limiter.Event) :
  Limiter.concurrency (Limiter.step s e) = Limiter.concurrency s.
Proof.
  destruct e as [id fetch|id]; cbn [Limiter.step].
  - now rewrite startNext_concurrency.
  - destruct (Limiter.advance id (Limiter.running s)) as [[running' [|]]|];
      [now rewrite startNext_concurrency|reflexivity|reflexivity].
Qed.

Lemma run_concurrency (events : list Limiter.Event) :
  forall s, Limiter.concurrency (Limiter.run s events) = Limiter.concurrency s.
Proof.
  unfold Limiter.run.
  induction events as [|e events IH]; intros s; [reflexivity|].
  cbn [fold_left]. now rewrite IH, step_concurrency.
Qed.

Lemma inFlightCount_le_running (s : Limiter.State) :
  Limiter.inFlightCount s <= length (Limiter.running s).
Proof. apply filter_length_le. Qed.

(** C9. Whatever is submitted to the limiter of a client and however the
    units progress: never more than the configured number of units hold a
    slot, hence never more than that many have a transport call in
    flight; units begin in the order they were submitted, the others
    waiting in that order; a unit waits only while every slot is taken;
    a unit that moves on to a wait or a new attempt keeps its slot and
    nothing is queued for it.  The limit is 6 when none is configured. *)
Theorem limiter_bounds_in_flight (options : ExpoClientOptions)
    (events : list Limiter.Event) :
  let client := Expo_constructor options in
  let limit := limitConcurrentRequestsAt client in
  let s := Limiter.run (Limiter.ofClient client) events in
  Limiter.inFlightCount s <= limit
  /\ length (Limiter.running s) <= limit
  /\ Limiter.submitted s = Limiter.begun s ++ map fst (Limiter.pending s)
  /\ (Limiter.pending s <> [] -> length (Limiter.running s) = limit)
  /\ (forall id running',
         Limiter.advance id (Limiter.running s) = Some (running', false) ->
         map fst (Limiter.running (Limiter.step s (Limiter.Progress id)))
           = map fst (Limiter.running s)
         /\ Limiter.pending (Limiter.step s (Limiter.Progress id))
            = Limiter.pending s
         /\ Limiter.begun (Limiter.step s (Limiter.Progress id))
            = Limiter.begun s)
  /\ (maxConcurrentRequests options = None -> limit = 6).
Proof.
  intros client limit s.
  assert (Hlimit : Limiter.concurrency s = limit)
    by (unfold s; now rewrite run_concurrency).
  assert (Hinv : LimiterInv s) by apply run_inv, create_inv.
  destruct Hinv as [Hcap Hfifo Hwait].
  rewrite Hlimit in Hcap, Hwait.
  pose proof (inFlightCount_le_running s) as Hfly.
  repeat split; auto; try lia.
  - cbn [Limiter.step]. rewrite H. cbn.
    now apply (advance_outcome id (Limiter.running s)) in H.
  - cbn [Limiter.step]. now rewrite H.
  - cbn [Limiter.step]. now rewrite H.
  - intros Hnone. unfold limit, client, Expo_constructor. cbn.
    now rewrite Hnone.
Qed.

Lemma limiter_bounds_in_flight_witness :
  length (Limiter.running
            (Limiter.run (Limiter.ofClient (Expo_constructor oneAtATime))
               twoUnits)) = 1
  /\ limitConcurrentRequestsAt
       (Expo_constructor (mkOptions None None None)) = 6.
Proof.
  split.
  - apply (proj1 (proj2 (proj2 (proj2
             (limiter_bounds_in_flight oneAtATime twoUnits))))).
    vm_compute. discriminate.
  - apply (proj2 (proj2 (proj2 (proj2 (proj2
             (limiter_bounds_in_flight (mkOptions None None None) [])))))).
    reflexivity.
Defined.

(** * Properties of the flat chunker *)

Section FlatChunker.

Context {T : Type}.
Variable chunkSize : nat.

(** The loop keeps the items seen so far, in order, in the closed chunks
    followed by the open one. *)
Lemma forEachItem_fold_concat (items : list T) :
  forall chunks chunk,
    concat (fst (fold_left (forEachItem chunkSize) items (chunks, chunk)))
      ++ snd (fold_left (forEachItem chunkSize) items (chunks, chunk))
    = concat chunks ++ chunk ++ items.
Proof.
  induction items as [|item items IH]; intros chunks chunk; cbn [fold_left].
  - cbn. now rewrite app_nil_r.
  - unfold forEachItem at 2 4.
    destruct (chunkSize <=? length (chunk ++ [item])); rewrite IH.
    + rewrite concat_app. cbn. now rewrite !app_nil_r, <- !app_assoc.
    + now rewrite <- !app_assoc.
Qed.

Hypothesis chunkSize_pos : 1 <= chunkSize.

Lemma forEachItem_fold_sizes (items : list T) :
  forall chunks chunk,
    length chunk < chunkSize ->
    Forall (fun c => length c = chunkSize) chunks ->
    length (snd (fold_left (forEachItem chunkSize) items (chunks, chunk)))
      < chunkSize
    /\ Forall (fun c => length c = chunkSize)
         (fst (fold_left (forEachItem chunkSize) items (chunks, chunk))).
Proof.
  induction items as [|item items IH]; intros chunks chunk Hlt Hfull;
    cbn [fold_left].
  - auto.
  - unfold forEachItem at 2 4.
    destruct (Nat.leb_spec chunkSize (length (chunk ++ [item]))) as [Hge|Hno];
      apply IH; cbn [length]; auto; try lia.
    apply Forall_app; split; auto. constructor; auto.
    rewrite length_app in *. cbn [length] in *. lia.
Qed.

Lemma concat_full_length (chunks : list (list T)) :
  Forall (fun c => length c = chunkSize) chunks ->
  length (concat chunks) = chunkSize * length chunks.
Proof.
  induction 1 as [|c cs Hc _ IH]; cbn [concat length]; [lia|].
  rewrite length_app, IH, Hc. lia.
Qed.

End FlatChunker.

Lemma Forall_removelast {A : Type} (P : A -> Prop) (l : list A) :
  Forall P l -> Forall P (removelast l).
Proof.
  induction 1 as [|x l Hx Hl IH]; [constructor|].
  cbn [removelast]. destruct l; [constructor|]. constructor; auto.
Qed.

(** What [chunkItems] returns, for a positive chunk size: full chunks,
    then the open chunk if it holds anything. *)
Lemma chunkItems_cases {T : Type} (items : list T) (chunkSize : nat) :
  1 <= chunkSize ->
  exists chunks chunk,
    Forall (fun c => length c = chunkSize) chunks /\
    length chunk < chunkSize /\
    concat chunks ++ chunk = items /\
    chunkItems items chunkSize
    = match chunk with [] => chunks | _ :: _ => chunks ++ [chunk] end.
Proof.
  intros Hpos.
  pose proof (forEachItem_fold_concat chunkSize items [] []) as Hcat.
  destruct (@forEachItem_fold_sizes T chunkSize Hpos items [] [])
    as [Hlt Hfull]; [cbn; lia|constructor|].
  unfold chunkItems.
  destruct (fold_left (forEachItem chunkSize) items ([], [])) as [chunks chunk].
  cbn [fst snd] in *. exists chunks, chunk. repeat split; auto.
  now destruct chunk.
Qed.

(** The chunks of [chunkItems], concatenated, are the items in their
    order, whatever the chunk size. *)
Theorem chunkItems_concat {T : Type} (items : list T) (chunkSize : nat) :
  concat (chunkItems items chunkSize) = items.
Proof.
  pose proof (forEachItem_fold_concat chunkSize items [] []) as Hcat.
  unfold chunkItems.
  destruct (fold_left (forEachItem chunkSize) items ([], [])) as [chunks chunk].
  cbn [fst snd concat app] in Hcat.
  destruct chunk as [|x chunk]; cbn [length Nat.eqb negb].
  - now rewrite app_nil_r in Hcat.
  - rewrite concat_app. cbn [concat]. now rewrite app_nil_r.
Qed.

(** Every chunk of receipt ids holds between 1 and 300 ids, and every
    chunk but the last holds exactly 300. *)
Theorem receipt_chunk_sizes (receiptIds : list ExpoPushReceiptId) :
  Forall (fun c => 1 <= length c <= PUSH_NOTIFICATION_RECEIPT_CHUNK_LIMIT)
    (chunkPushNotificationReceiptIds receiptIds)
  /\ Forall (fun c => length c = PUSH_NOTIFICATION_RECEIPT_CHUNK_LIMIT)
       (removelast (chunkPushNotificationReceiptIds receiptIds)).
Proof.
  unfold chunkPushNotificationReceiptIds.
  assert (Hpos : 1 <= PUSH_NOTIFICATION_RECEIPT_CHUNK_LIMIT)
    by (unfold PUSH_NOTIFICATION_RECEIPT_CHUNK_LIMIT; lia).
  destruct (chunkItems_cases receiptIds Hpos)
    as (chunks & chunk & Hfull & Hlt & _ & ->).
  assert (Hbound : Forall (fun c => 1 <= length c
                                   <= PUSH_NOTIFICATION_RECEIPT_CHUNK_LIMIT)
                     chunks).
  { eapply Forall_impl; [|exact Hfull]. cbn beta. intros c Hc. lia. }
  destruct chunk as [|x chunk].
  - split; [assumption|now apply Forall_removelast].
  - split.
    + apply Forall_app; split; [assumption|]. constructor; [|constructor].
      cbn [length] in *. lia.
    + now rewrite removelast_last.
Qed.

(** The number of chunks of receipt ids is the number of ids divided by
    300, rounded up. *)
Theorem receipt_chunk_count (receiptIds : list ExpoPushReceiptId) :
  length (chunkPushNotificationReceiptIds receiptIds)
  = (length receiptIds + 299) / 300.
Proof.
  unfold chunkPushNotificationReceiptIds.
  assert (Hpos : 1 <= PUSH_NOTIFICATION_RECEIPT_CHUNK_LIMIT)
    by (unfold PUSH_NOTIFICATION_RECEIPT_CHUNK_LIMIT; lia).
  destruct (chunkItems_cases receiptIds Hpos)
    as (chunks & chunk & Hfull & Hlt & Hcat & ->).
  apply (f_equal (@length _)) in Hcat.
  rewrite length_app, (concat_full_length Hpos Hfull) in Hcat.
  unfold PUSH_NOTIFICATION_RECEIPT_CHUNK_LIMIT in *.
  destruct chunk as [|x chunk].
  - cbn [length] in Hcat. apply Nat.div_unique with (r := 299); lia.
  - rewrite length_app. cbn [length] in *.
    apply Nat.div_unique with (r := length chunk); lia.
Qed.

(** * Further properties of the chunker *)

Lemma finishChunks_cases (st : ChunkState) :
  ChunkInv st ->
  finishChunks st
  = match chunk st with [] => chunks st | _ :: _ => chunks st ++ [chunk st] end.
Proof.
  intros [_ Hcount Hopen _ _]. unfold finishChunks.
  destruct (chunk st) as [|x rest]; rewrite Hcount; [reflexivity|].
  inversion Hopen as [|? ? Hx _]; subst. unfold hasRecipients in Hx.
  cbn [batchRecipients flat_map]. rewrite length_app.
  destruct (recipientsOf x); [contradiction|reflexivity].
Qed.

Lemma allRecipients_full_length (batches : list (list ExpoPushMessage)) :
  Forall (fun b => length (batchRecipients b) = PUSH_NOTIFICATION_CHUNK_LIMIT)
    batches ->
  length (allRecipients batches)
  = PUSH_NOTIFICATION_CHUNK_LIMIT * length batches.
Proof.
  induction 1 as [|b bs Hb _ IH]; cbn [length]; [cbn; lia|].
  rewrite allRecipients_cons, length_app, IH, Hb. lia.
Qed.

Lemma getActualMessageCount_batch (batch : list ExpoPushMessage) :
  _getActualMessageCount batch = length (batchRecipients batch).
Proof. apply getActualMessageCount_length. Qed.

(** Every batch holds between 1 and 100 recipients, and every batch but
    the last holds exactly 100. *)
Theorem chunkPushNotifications_batches_full (messages : list ExpoPushMessage) :
  Forall (fun batch => 1 <= _getActualMessageCount batch
                       <= PUSH_NOTIFICATION_CHUNK_LIMIT)
    (chunkPushNotifications messages)
  /\ Forall (fun batch => _getActualMessageCount batch
                          = PUSH_NOTIFICATION_CHUNK_LIMIT)
       (removelast (chunkPushNotifications messages)).
Proof.
  pose proof chunk_limit_pos as Hpos.
  pose proof (runMessages_inv messages initial_inv) as Hinv.
  unfold chunkPushNotifications. rewrite (finishChunks_cases Hinv).
  destruct Hinv as [Hlt Hcount Hopen Hfull _].
  assert (Hexact : Forall (fun batch => _getActualMessageCount batch
                                        = PUSH_NOTIFICATION_CHUNK_LIMIT)
                     (chunks (runMessages initialChunkState messages))).
  { eapply Forall_impl; [|exact Hfull]. cbn beta. intros b Hb.
    now rewrite getActualMessageCount_batch. }
  assert (Hbound : Forall (fun batch => 1 <= _getActualMessageCount batch
                                        <= PUSH_NOTIFICATION_CHUNK_LIMIT)
                     (chunks (runMessages initialChunkState messages))).
  { eapply Forall_impl; [|exact Hexact]. cbn beta. intros b Hb. lia. }
  destruct (chunk (runMessages initialChunkState messages)) as [|x rest] eqn:Hch.
  - split; [assumption|now apply Forall_removelast].
  - split; [|now rewrite removelast_last].
    apply Forall_app; split; [assumption|]. constructor; [|constructor].
    rewrite getActualMessageCount_batch, <- Hcount. split; [|lia].
    rewrite Hcount. inversion Hopen as [|? ? Hx _]; subst.
    unfold hasRecipients in Hx. cbn [batchRecipients flat_map].
    rewrite length_app. destruct (recipientsOf x); [contradiction|cbn; lia].
Qed.

(** The number of batches is the number of recipients divided by 100,
    rounded up. *)
Theorem chunkPushNotifications_batch_count (messages : list ExpoPushMessage) :
  length (chunkPushNotifications messages)
  = (_getActualMessageCount messages + 99) / 100.
Proof.
  pose proof (runMessages_inv messages initial_inv) as Hinv.
  pose proof (runMessages_emitted messages initial_inv) as Hemit.
  unfold chunkPushNotifications. rewrite (finishChunks_cases Hinv).
  rewrite getActualMessageCount_length.
  destruct Hinv as [Hlt Hcount Hopen Hfull _].
  apply (f_equal (@length _)) in Hemit. cbn [emitted initialChunkState app] in Hemit.
  unfold emitted in Hemit.
  change (allRecipients (chunks initialChunkState)
          ++ batchRecipients (chunk initialChunkState)) with (@nil ExpoPushToken)
    in Hemit.
  cbn [app] in Hemit.
  rewrite length_app, (allRecipients_full_length Hfull), <- Hcount in Hemit.
  rewrite <- Hemit. unfold PUSH_NOTIFICATION_CHUNK_LIMIT in *.
  destruct (chunk (runMessages initialChunkState messages)) as [|x rest] eqn:Hch.
  - cbn in Hcount. rewrite Hcount.
    apply Nat.div_unique with (r := 99); lia.
  - rewrite length_app. cbn [length].
    assert (1 <= chunkMessagesCount (runMessages initialChunkState messages)).
    { rewrite Hcount. inversion Hopen as [|? ? Hx _]; subst.
      unfold hasRecipients in Hx. cbn [batchRecipients flat_map].
      rewrite length_app. destruct (recipientsOf x); [contradiction|cbn; lia]. }
    apply Nat.div_unique
      with (r := chunkMessagesCount (runMessages initialChunkState messages) - 1);
      lia.
Qed.

Lemma withTo_self (m : ExpoPushMessage) tos :
  to m = ToMany tos -> withTo m tos = m.
Proof. destruct m. cbn. now intros ->. Qed.

(** A message that leaves room in the open batch joins it as it is. *)
Lemma forEachMessage_fits (st : ChunkState) (m : ExpoPushMessage) :
  hasRecipients m ->
  chunkMessagesCount st + length (recipientsOf m)
    < PUSH_NOTIFICATION_CHUNK_LIMIT ->
  forEachMessage st m
  = {| chunks := chunks st;
       chunk := chunk st ++ [m];
       chunkMessagesCount := chunkMessagesCount st + length (recipientsOf m) |}.
Proof.
  unfold hasRecipients, recipientsOf. intros Hm Hfit.
  destruct (to m) as [t|tos] eqn:Hto.
  - rewrite (forEachMessage_one st m Hto). cbn [length] in *.
    limit_reached (S (chunkMessagesCount st)); [lia|].
    now rewrite Nat.add_1_r.
  - destruct (@forEachMessage_many st m tos Hto ltac:(lia))
      as [[_ Heq]|(f1 & mids & p' & Hne & Hsplit & Hfill & _)].
    + rewrite Heq. destruct tos; [contradiction|].
      now rewrite (withTo_self m Hto).
    + subst tos. rewrite length_app in Hfit. lia.
Qed.

(** A message that exactly fills the open batch closes it. *)
Lemma forEachMessage_fills (st : ChunkState) (m : ExpoPushMessage) :
  chunkMessagesCount st < PUSH_NOTIFICATION_CHUNK_LIMIT ->
  chunkMessagesCount st + length (recipientsOf m)
    = PUSH_NOTIFICATION_CHUNK_LIMIT ->
  forEachMessage st m
  = {| chunks := chunks st ++ [chunk st ++ [m]];
       chunk := [];
       chunkMessagesCount := 0 |}.
Proof.
  unfold recipientsOf. intros Hlt Hfill.
  destruct (to m) as [t|tos] eqn:Hto.
  - rewrite (forEachMessage_one st m Hto). cbn [length] in *.
    limit_reached (S (chunkMessagesCount st)); [reflexivity|lia].
  - destruct (@forEachMessage_many st m tos Hto Hlt)
      as [[Hfit _]|(f1 & mids & p' & Hne & Hsplit & Hfill1 & Hmids & _ & Heq)];
      [lia|].
    assert (Hrest : length (concat mids ++ p') = 0).
    { subst tos. rewrite length_app in Hfill. lia. }
    apply length_zero_iff_nil, app_eq_nil in Hrest as [Hmidsnil ->].
    assert (mids = []) as ->.
    { destruct mids as [|f mids]; [reflexivity|].
      inversion Hmids as [|? ? Hf _]; subst. cbn in Hmidsnil.
      apply app_eq_nil in Hmidsnil as [-> _].
      pose proof chunk_limit_pos. cbn in Hf. lia. }
    cbn in Hsplit. rewrite app_nil_r in Hsplit. subst f1.
    rewrite Heq, (withTo_self m Hto). reflexivity.
Qed.

Lemma small_input_from_state (messages : list ExpoPushMessage) :
  forall st,
    ChunkInv st ->
    chunks st = [] ->
    Forall hasRecipients messages ->
    chunkMessagesCount st + length (flat_map recipientsOf messages)
      <= PUSH_NOTIFICATION_CHUNK_LIMIT ->
    chunk st ++ messages <> [] ->
    finishChunks (runMessages st messages) = [chunk st ++ messages].
Proof.
  induction messages as [|m ms IH]; intros st Hinv Hchunks Hall Hsum Hne.
  - cbn [runMessages fold_left]. rewrite (finishChunks_cases Hinv), Hchunks.
    rewrite app_nil_r in *. now destruct (chunk st).
  - rewrite runMessages_cons.
    inversion Hall as [|? ? Hm Hms]; subst.
    cbn [flat_map] in Hsum. rewrite length_app in Hsum.
    pose proof (forEachMessage_inv m Hinv) as Hinv'.
    destruct (Nat.eq_dec
                (chunkMessagesCount st + length (recipientsOf m))
                PUSH_NOTIFICATION_CHUNK_LIMIT) as [Hfull|Hroom].
    + rewrite (@forEachMessage_fills st m (inv_lt Hinv) Hfull) in *.
      assert (ms = []) as ->.
      { destruct ms as [|m' ms]; [reflexivity|].
        inversion Hms as [|? ? Hm' _]; subst. unfold hasRecipients in Hm'.
        cbn [flat_map] in Hsum. rewrite length_app in Hsum.
        destruct (recipientsOf m'); [contradiction|cbn in Hsum; lia]. }
      cbn [runMessages fold_left]. unfold finishChunks. cbn. now rewrite Hchunks.
    + rewrite (@forEachMessage_fits st m Hm) in * by lia.
      rewrite IH; auto.
      * cbn [chunk]. now rewrite <- app_assoc.
      * cbn [chunkMessagesCount]. lia.
      * cbn [chunk]. now destruct (chunk st).
Qed.

(** Input that fits in one batch comes back as that one batch: messages
    that all have recipients, at most 100 in total, are returned together
    and unchanged. *)
Theorem chunkPushNotifications_small_input (messages : list ExpoPushMessage) :
  messages <> [] ->
  Forall hasRecipients messages ->
  _getActualMessageCount messages <= PUSH_NOTIFICATION_CHUNK_LIMIT ->
  chunkPushNotifications messages = [messages].
Proof.
  intros Hne Hall Hsum. rewrite getActualMessageCount_length in Hsum.
  unfold chunkPushNotifications.
  now rewrite (@small_input_from_state messages initialChunkState
                 initial_inv eq_refl Hall Hsum).
Qed.

Lemma chunkPushNotifications_small_input_witness :
  chunkPushNotifications
    [simpleMessage (ToOne "a"); simpleMessage (ToMany ["b"; "c"])]
  = [[simpleMessage (ToOne "a"); simpleMessage (ToMany ["b"; "c"])]].
Proof.
  apply chunkPushNotifications_small_input.
  - discriminate.
  - repeat constructor; discriminate.
  - vm_compute. lia.
Defined.

(** Every batch, chunked again, is itself: a batch is ready to be sent as
    one request. *)
Theorem chunkPushNotifications_batches_stable (messages : list ExpoPushMessage) :
  Forall (fun batch => chunkPushNotifications batch = [batch])
    (chunkPushNotifications messages).
Proof.
  pose proof (runMessages_inv messages initial_inv) as Hinv.
  pose proof (finishChunks_hasRecipients Hinv) as Hrec.
  destruct (chunkPushNotifications_batches_full messages) as [Hbound _].
  fold (chunkPushNotifications messages) in Hrec.
  rewrite Forall_forall in *. intros batch Hin.
  apply chunkPushNotifications_small_input.
  - specialize (Hbound batch Hin). intros ->. cbn in Hbound. lia.
  - now apply Hrec.
  - now apply Hbound.
Qed.

Lemma scalar_messages_simulate (messages : list ExpoPushMessage) :
  Forall (fun m => exists t, to m = ToOne t) messages ->
  forall st,
    chunkMessagesCount st = length (chunk st) ->
    fold_left (forEachItem PUSH_NOTIFICATION_CHUNK_LIMIT) messages
      (chunks st, chunk st)
    = (chunks (runMessages st messages), chunk (runMessages st messages))
    /\ chunkMessagesCount (runMessages st messages)
       = length (chunk (runMessages st messages)).
Proof.
  induction 1 as [|m ms [t Hto] _ IH]; intros st Hcount; [now split|].
  rewrite runMessages_cons. cbn [fold_left].
  rewrite (forEachMessage_one st m Hto).
  unfold forEachItem at 2. rewrite length_app. cbn [length].
  rewrite Nat.add_1_r, <- Hcount.
  destruct (PUSH_NOTIFICATION_CHUNK_LIMIT <=? S (chunkMessagesCount st)).
  - apply (IH {| chunks := chunks st ++ [chunk st ++ [m]]; chunk := [];
                 chunkMessagesCount := 0 |}). reflexivity.
  - apply (IH {| chunks := chunks st; chunk := chunk st ++ [m];
                 chunkMessagesCount := S (chunkMessagesCount st) |}).
    cbn. rewrite length_app. cbn. lia.
Qed.

(** On messages that each have a single recipient, the message chunker
    is the flat chunker with chunks of 100. *)
Theorem chunkPushNotifications_scalar_recipients
    (messages : list ExpoPushMessage) :
  Forall (fun m => exists t, to m = ToOne t) messages ->
  chunkPushNotifications messages
  = chunkItems messages PUSH_NOTIFICATION_CHUNK_LIMIT.
Proof.
  intros Hall.
  destruct (scalar_messages_simulate Hall initialChunkState eq_refl)
    as [Hfold Hcount].
  unfold chunkPushNotifications, chunkItems, finishChunks.
  change (@nil (list ExpoPushMessage), @nil ExpoPushMessage)
    with (chunks initialChunkState, chunk initialChunkState).
  now rewrite Hfold, Hcount.
Qed.

Lemma chunkPushNotifications_scalar_recipients_witness :
  chunkPushNotifications [simpleMessage (ToOne "a"); simpleMessage (ToOne "b")]
  = chunkItems [simpleMessage (ToOne "a"); simpleMessage (ToOne "b")]
      PUSH_NOTIFICATION_CHUNK_LIMIT.
Proof.
  apply chunkPushNotifications_scalar_recipients.
  repeat constructor; eexists; reflexivity.
Defined.

(** *** Where emitted messages come from *)

Lemma derived_state_step (all : list ExpoPushMessage) (st : ChunkState)
    (m : ExpoPushMessage) :
  chunkMessagesCount st < PUSH_NOTIFICATION_CHUNK_LIMIT ->
  In m all ->
  Forall (Forall (derivedFrom all)) (chunks st) ->
  Forall (derivedFrom all) (chunk st) ->
  Forall (Forall (derivedFrom all)) (chunks (forEachMessage st m))
  /\ Forall (derivedFrom all) (chunk (forEachMessage st m)).
Proof.
  intros Hlt Hin Hchunks Hchunk.
  assert (Hself : derivedFrom all m) by (exists m; auto).
  assert (Hcopy : forall part, derivedFrom all (withTo m part))
    by (intros part; exists m; eauto).
  destruct (to m) as [t|tos] eqn:Hto.
  - rewrite (forEachMessage_one st m Hto).
    destruct (PUSH_NOTIFICATION_CHUNK_LIMIT <=? S (chunkMessagesCount st));
      cbn [chunks chunk]; split; auto using Forall_app.
    + apply Forall_app; split; auto. constructor; auto.
      apply Forall_app; auto.
    + apply Forall_app; auto.
  - destruct (forEachMessage_many st m Hto Hlt)
      as [[_ Heq]|(f1 & mids & p' & _ & _ & _ & _ & _ & Heq)];
      rewrite Heq; cbn [chunks chunk]; split; auto.
    + apply Forall_app; split; auto. destruct tos; auto.
    + apply Forall_app; split; auto. constructor.
      * apply Forall_app; auto.
      * apply Forall_map, Forall_forall. intros f _. auto.
    + destruct p'; auto.
Qed.

Lemma derived_state_run (all messages : list ExpoPushMessage) :
  forall st,
    ChunkInv st ->
    (forall m, In m messages -> In m all) ->
    Forall (Forall (derivedFrom all)) (chunks st) ->
    Forall (derivedFrom all) (chunk st) ->
    Forall (Forall (derivedFrom all)) (chunks (runMessages st messages))
    /\ Forall (derivedFrom all) (chunk (runMessages st messages)).
Proof.
  induction messages as [|m ms IH]; intros st Hinv Hsub Hchunks Hchunk;
    [now split|].
  rewrite runMessages_cons.
  destruct (@derived_state_step all st m (inv_lt Hinv)) as [H1 H2]; auto.
  { apply Hsub. now left. }
  apply IH; auto.
  - now apply forEachMessage_inv.
  - intros m' Hm'. apply Hsub. now right.
Qed.

(** Every message of every batch is a message of the input, or a copy of
    one with only its recipient field replaced: the chunker makes up no
    message and touches no other field. *)
Theorem chunkPushNotifications_messages_from_input
    (messages : list ExpoPushMessage) :
  Forall (Forall (fun f => exists m,
                      In m messages /\ sameExceptTo f m /\
                      (f = m \/ exists part, f = withTo m part)))
    (chunkPushNotifications messages).
Proof.
  destruct (@derived_state_run messages messages initialChunkState initial_inv)
    as [Hchunks Hchunk]; auto.
  assert (Hall : Forall (Forall (derivedFrom messages))
                   (chunkPushNotifications messages)).
  { unfold chunkPushNotifications, finishChunks.
    destruct (negb _); auto. apply Forall_app; auto. }
  eapply Forall_impl; [|exact Hall]. intros batch Hbatch.
  eapply Forall_impl; [|exact Hbatch]. intros f (m & Hin & Hf).
  exists m. split; [assumption|]. split; [|assumption].
  destruct Hf as [->|[part ->]]; repeat split.
Qed.

(** * Further properties of the response normalizer *)

(** With status 200 and an empty [errors] list the request fails with a
    bare error that carries neither the status nor the body, and any
    [data] beside the list is ignored. *)
Theorem requestAsync_empty_errors (response : Response) (result : ApiResult) :
  status response = 200 ->
  jsonBody response = Some result ->
  errors result = Some [] ->
  requestAsync (FetchResolved response)
  = Throw (ThrowError (newError "Expected at least one error from Expo")).
Proof.
  intros Hs Hj He. unfold requestAsync, getErrorFromResult.
  now rewrite Hs, Hj, He.
Qed.

Lemma requestAsync_empty_errors_witness :
  requestAsync
    (FetchResolved
       (okResponse "..." {| errors := Some []; result_data := JArr [JNull] |}))
  = Throw (ThrowError (newError "Expected at least one error from Expo")).
Proof.
  apply (@requestAsync_empty_errors _
           {| errors := Some []; result_data := JArr [JNull] |});
    reflexivity.
Defined.

(** * Properties of the receipts call *)

(** The receipts call returns the payload exactly when it is a plain
    object; any other payload, [null] and [undefined] included, makes it
    fail with an error that carries the payload; an error of the request
    is passed on as it is. *)
Theorem getPushNotificationReceiptsAsync_outcome
    (receiptIds : list ExpoPushReceiptId) (fetched : FetchOutcome) :
  getPushNotificationReceiptsAsync receiptIds fetched
  = match requestAsync fetched with
    | Throw thrown => Throw thrown
    | Return (JObj receipts) => Return (JObj receipts)
    | Return data =>
        Throw (ThrowError
                 (setData data
                    (newError "Expected Expo to respond with a map from receipt IDs to receipts but received data of another type")))
    end.
Proof.
  unfold getPushNotificationReceiptsAsync.
  destruct (requestAsync fetched) as [data|thrown]; cbn [bind]; [|reflexivity].
  destruct data as [| |b|n|s|l|ps]; cbn; try reflexivity.
  - now destruct b.
  - now destruct (n =? 0)%Z.
  - now destruct (String.eqb s "").
Qed.

(** * Properties of the request *)

(** The headers of every request: the three fixed ones, [Authorization]
    only for a non-empty access token, [Content-Type] only with a body. *)
Theorem buildRequest_headers (client : Expo) (url : string)
    (options : RequestOptions) :
  let headers := requestHeaders (buildRequest client url options) in
  headersGet "Accept" headers = Some "application/json"
  /\ headersGet "Accept-Encoding" headers = Some "gzip, deflate"
  /\ headersGet "User-Agent" headers = Some "expo-push-api-js"
  /\ headersGet "Authorization" headers
     = match expoAccessToken client with
       | Some token =>
           if String.eqb token "" then None
           else Some ("Bearer " ++ token)%string
       | None => None
       end
  /\ headersGet "Content-Type" headers
     = match bodyJson options with
       | Some _ => Some "application/json"
       | None => None
       end.
Proof.
  unfold buildRequest.
  destruct (bodyJson options) as [json|];
    [destruct (shouldCompress options json
               && negb (compressionDisabled (expoCompression client)))|];
    destruct (expoAccessToken client) as [token|];
    try destruct (String.eqb token ""); cbn; repeat split.
Qed.

(** * Further properties of the token predicate *)

Lemma string_append_assoc (a b c : string) :
  ((a ++ b) ++ c)%string = (a ++ (b ++ c))%string.
Proof. induction a; cbn; congruence. Qed.

Lemma string_length_append (a b : string) :
  String.length (a ++ b) = String.length a + String.length b.
Proof. induction a; cbn; congruence. Qed.

Lemma lastChar_append (a b : string) :
  b <> "" -> lastChar (a ++ b) = lastChar b.
Proof.
  intros Hb. induction a as [|c a IH]; [reflexivity|].
  cbn [append lastChar]. rewrite <- IH.
  destruct (a ++ b)%string eqn:E; [|reflexivity].
  destruct a; cbn in E; [contradiction|discriminate].
Qed.

Lemma lastChar_separator (g : string) (c : ascii) (rest : string) :
  rest <> "" -> lastChar (g ++ String c rest) = lastChar rest.
Proof.
  intros Hrest. rewrite lastChar_append by discriminate.
  cbn [lastChar]. destruct rest; [contradiction|reflexivity].
Qed.

Lemma append_separator_nonempty (g : string) (c : ascii) (rest : string) :
  (g ++ String c rest)%string <> "".
Proof. destruct g; discriminate. Qed.

Lemma lastChar_group (accepts : ascii -> bool) (n : nat) (g : string) :
  Group accepts (S n) g ->
  exists d, lastChar g = Some d /\ accepts d = true.
Proof.
  intros [Hlen Hall]. revert n Hlen. induction g as [|c g IH]; intros n Hlen; [discriminate|].
  cbn in Hall. apply andb_true_iff in Hall as [Hc Hall].
  destruct g as [|c' g].
  - exists c. auto.
  - cbn in Hlen. injection Hlen as Hlen.
    destruct n; [discriminate|].
    destruct (IH Hall n Hlen) as (d & Hd & Hacc). exists d. auto.
Qed.

(** Whatever stands between the brackets, a string of the bracketed form
    is accepted. *)
Theorem isExpoPushToken_any_bracket_content (content : string) :
  isExpoPushToken (JStr ("ExponentPushToken[" ++ content ++ "]")) = true
  /\ isExpoPushToken (JStr ("ExpoPushToken[" ++ content ++ "]")) = true.
Proof.
  split; cbn [isExpoPushToken]; apply orb_true_iff; left;
    apply bracketed_spec; split.
  - left. eexists. reflexivity.
  - exists ("ExponentPushToken[" ++ content)%string.
    now rewrite string_append_assoc.
  - right. eexists. reflexivity.
  - exists ("ExpoPushToken[" ++ content)%string.
    now rewrite string_append_assoc.
Qed.

(** An accepted token is not empty and ends with a closing bracket, a
    letter or a digit: a trailing space or line break is never accepted. *)
Theorem isExpoPushToken_last_character (s : string) :
  isExpoPushToken (JStr s) = true ->
  exists c, lastChar s = Some c /\ (c = "]"%char \/ letterOrDigit c = true).
Proof.
  cbn [isExpoPushToken]. rewrite orb_true_iff, bracketed_spec, uuid_regex_spec.
  intros [[_ [front ->]]|(g1 & g2 & g3 & g4 & g5 & -> & _ & _ & _ & _ & H5)].
  - exists "]"%char. split; [|now left].
    now rewrite lastChar_append by discriminate.
  - destruct (lastChar_group H5) as (d & Hd & Hacc).
    exists d. split; [|now right].
    assert (Hg5 : g5 <> "") by (destruct g5; [discriminate Hd|discriminate]).
    cbn [append].
    rewrite !lastChar_separator;
      auto using append_separator_nonempty.
Qed.

Lemma isExpoPushToken_last_character_witness :
  exists c, lastChar "ExpoPushToken[x]" = Some c
            /\ (c = "]"%char \/ letterOrDigit c = true).
Proof.
  apply isExpoPushToken_last_character. reflexivity.
Defined.

(** An accepted token that does not end with a closing bracket has
    exactly 36 characters. *)
Theorem isExpoPushToken_uuid_length (s : string) :
  isExpoPushToken (JStr s) = true ->
  endsWith s "]" = false ->
  String.length s = 36.
Proof.
  cbn [isExpoPushToken]. intros Hok Hend. rewrite Hend, andb_false_r in Hok.
  cbn [orb] in Hok. apply uuid_regex_spec in Hok
    as (g1 & g2 & g3 & g4 & g5 & -> & [H1 _] & [H2 _] & [H3 _] & [H4 _] & [H5 _]).
  rewrite !string_length_append. cbn [String.length].
  rewrite H1, H2, H3, H4, H5. reflexivity.
Qed.

Lemma isExpoPushToken_uuid_length_witness :
  String.length "0123ABCD-0a1b-2c3d-4e5f-0123456789ab" = 36.
Proof.
  apply isExpoPushToken_uuid_length; reflexivity.
Defined.

(** * The normalizer on any parsed body *)

Lemma untyped_get_errors (result : JsValue) :
  notNullish result = true ->
  Untyped.get result "errors" = Untyped.Returns (Untyped.errorsOf result).
Proof. destruct result; cbn; intros H; try discriminate; reflexivity. Qed.

Lemma untyped_get_data (result : JsValue) :
  notNullish result = true ->
  Untyped.get result "data" = Untyped.Returns (Untyped.dataOf result).
Proof. destruct result; cbn; intros H; try discriminate; reflexivity. Qed.

Lemma untyped_get_nullish (result : JsValue) (property : string) :
  notNullish result = false ->
  Untyped.get result property
  = Untyped.Throws
      (Untyped.ThrowTypeError (Untyped.ReadOfNullish result property)).
Proof. destruct result; cbn; intros H; try discriminate; reflexivity. Qed.

(** C6, as stated, fails: with status 500 and body [{}] the body parses,
    has no [errors] list, and the error is not the one built from the text
    and the status alone: the parsed body is attached to it as
    [errorData]. *)
Lemma untyped_text_error_alone_counterexample :
  Untyped.status emptyObjectBody <> 200 /\
  Untyped.parsed emptyObjectBody = Some (JObj []) /\
  Untyped.errorsOf (JObj []) = JUndefined /\
  Untyped.requestAsync emptyObjectBody
  <> Untyped.Throws
       (Untyped.ThrowError
          {| Untyped.message :=
               "Expo responded with an error with status code 500: {}";
             Untyped.statusCode := Some 500;
             Untyped.errorText := Some "{}";
             Untyped.errorData := None;
             Untyped.code := JUndefined;
             Untyped.details := None;
             Untyped.serverStack := None;
             Untyped.others := None |}).
Proof.
  repeat split; [cbn; lia|].
  intros H. vm_compute in H. discriminate H.
Qed.

(** C6, amended. With a status other than 200 the body is first parsed.
    When it does not parse, the error is built from the raw text and the
    status code alone: its message is the fixed prefix with the status and
    the text, its [statusCode] the status, its [errorText] the text, and
    nothing else is set.  When it parses to a value other than [null]
    whose [errors] is not a non-empty list, the error is that same error
    with the parsed body attached as [errorData]. *)
Theorem untyped_error_status_fallback (response : Untyped.Response) :
  Untyped.status response <> 200 ->
  (Untyped.parsed response = None ->
   Untyped.requestAsync response
   = Untyped.Throws
       (Untyped.ThrowError
          {| Untyped.message :=
               ("Expo responded with an error with status code "
                ++ numberToString (Untyped.status response) ++ ": "
                ++ Untyped.textBody response)%string;
             Untyped.statusCode := Some (Untyped.status response);
             Untyped.errorText := Some (Untyped.textBody response);
             Untyped.errorData := None;
             Untyped.code := JUndefined;
             Untyped.details := None;
             Untyped.serverStack := None;
             Untyped.others := None |}))
  /\
  (forall result,
      Untyped.parsed response = Some result ->
      notNullish result = true ->
      (forall e es, Untyped.errorsOf result <> JArr (e :: es)) ->
      Untyped.requestAsync response
      = Untyped.Throws
          (Untyped.ThrowError
             {| Untyped.message :=
                  ("Expo responded with an error with status code "
                   ++ numberToString (Untyped.status response) ++ ": "
                   ++ Untyped.textBody response)%string;
                Untyped.statusCode := Some (Untyped.status response);
                Untyped.errorText := Some (Untyped.textBody response);
                Untyped.errorData := Some result;
                Untyped.code := JUndefined;
                Untyped.details := None;
                Untyped.serverStack := None;
                Untyped.others := None |})).
Proof.
  intros Hstatus. apply Nat.eqb_neq in Hstatus.
  unfold Untyped.requestAsync, Untyped.parseErrorResponseAsync.
  rewrite Hstatus. cbn [negb]. split.
  - intros ->. reflexivity.
  - intros result -> Hnn Hlacks.
    rewrite (untyped_get_errors result Hnn). cbn [Untyped.andThen].
    destruct (Untyped.errorsOf result) as [| |b|n|s|[|e es]|ps] eqn:He;
      try reflexivity.
    + now destruct b.
    + now destruct (truthy (JNum n)).
    + now destruct (truthy (JStr s)).
    + now destruct (Hlacks e es).
Qed.

Lemma untyped_error_status_fallback_witness :
  Untyped.requestAsync gatewayPage
  = Untyped.Throws
      (Untyped.ThrowError
         {| Untyped.message :=
              "Expo responded with an error with status code 502: <html>";
            Untyped.statusCode := Some 502;
            Untyped.errorText := Some "<html>";
            Untyped.errorData := None;
            Untyped.code := JUndefined;
            Untyped.details := None;
            Untyped.serverStack := None;
            Untyped.others := None |})
  /\ Untyped.requestAsync emptyObjectBody
     = Untyped.Throws
         (Untyped.ThrowError
            {| Untyped.message :=
                 "Expo responded with an error with status code 500: {}";
               Untyped.statusCode := Some 500;
               Untyped.errorText := Some "{}";
               Untyped.errorData := Some (JObj []);
               Untyped.code := JUndefined;
               Untyped.details := None;
               Untyped.serverStack := None;
               Untyped.others := None |}).
Proof.
  split.
  - apply (proj1 (@untyped_error_status_fallback gatewayPage
                    ltac:(cbn; lia))).
    reflexivity.
  - apply (proj2 (@untyped_error_status_fallback emptyObjectBody
                    ltac:(cbn; lia)) (JObj [])).
    + reflexivity.
    + reflexivity.
    + intros e es H. discriminate H.
Defined.

(** A request returns a value exactly when the status is 200 and the
    body parses to a value other than [null] whose [errors] property is
    absent or falsy; the value is then the [data] property. *)
Theorem untyped_requestAsync_returns_iff (response : Untyped.Response)
    (data : JsValue) :
  Untyped.requestAsync response = Untyped.Returns data
  <-> Untyped.status response = 200 /\
      exists result,
        Untyped.parsed response = Some result /\
        notNullish result = true /\
        truthy (Untyped.errorsOf result) = false /\
        Untyped.dataOf result = data.
Proof.
  unfold Untyped.requestAsync.
  destruct (Nat.eqb_spec (Untyped.status response) 200) as [H200|Hnot];
    cbn [negb].
  - destruct (Untyped.parsed response) as [result|].
    + destruct (notNullish result) eqn:Hnn.
      * rewrite (untyped_get_errors result Hnn). cbn [Untyped.andThen].
        destruct (truthy (Untyped.errorsOf result)) eqn:Ht.
        -- split.
           ++ destruct (Untyped.getErrorFromResult response result);
                discriminate.
           ++ intros (_ & r & [= <-] & _ & Hf & _). congruence.
        -- rewrite (untyped_get_data result Hnn). split.
           ++ intros [= <-]. split; [assumption|]. now exists result.
           ++ intros (_ & r & [= <-] & _ & _ & ->). reflexivity.
      * rewrite (untyped_get_nullish result "errors" Hnn). split.
        -- discriminate.
        -- intros (_ & r & [= <-] & Hr & _). congruence.
    + split; [discriminate|]. intros (_ & r & Hr & _). discriminate.
  - split; [|intros [H _]; contradiction].
    destruct (Untyped.parseErrorResponseAsync response); discriminate.
Qed.

(** What the pieces of the normalizer throw. *)
Lemma untyped_get_throws (v : JsValue) (property : string) t :
  Untyped.get v property = Untyped.Throws t ->
  exists e, t = Untyped.ThrowTypeError e.
Proof. destruct v; cbn; intros [= <-]; eauto. Qed.

Lemma untyped_andThen_throws {A B : Type} (c : Untyped.Outcome A)
    (k : A -> Untyped.Outcome B) (t : Untyped.Thrown)
    (P : Untyped.Thrown -> Prop) :
  (forall t', c = Untyped.Throws t' -> P t') ->
  (forall a, c = Untyped.Returns a -> k a = Untyped.Throws t -> P t) ->
  Untyped.andThen c k = Untyped.Throws t -> P t.
Proof.
  intros Hc Hk. destruct c as [a|t']; cbn [Untyped.andThen].
  - now apply Hk.
  - intros [= <-]. now apply Hc.
Qed.

(** One step through a sequence whose failures are all [TypeError]s. *)
Ltac through_andThen :=
  apply (@untyped_andThen_throws _ _ _ _ _
           (fun t => exists e, t = Untyped.ThrowTypeError e)).

Lemma untyped_newError_throws (m : JsValue) t :
  Untyped.newError m = Untyped.Throws t ->
  exists e, t = Untyped.ThrowTypeError e.
Proof.
  unfold Untyped.newError. through_andThen.
  - intros t'. unfold Untyped.stringOf.
    destruct m; try discriminate; destruct (toString _); try discriminate;
      intros [= <-]; eauto.
  - discriminate.
Qed.

Lemma untyped_getErrorFromResultError_throws (entry : JsValue) t :
  Untyped.getErrorFromResultError entry = Untyped.Throws t ->
  exists e, t = Untyped.ThrowTypeError e.
Proof.
  unfold Untyped.getErrorFromResultError.
  through_andThen; [apply untyped_get_throws|]. intros m _.
  through_andThen; [apply untyped_newError_throws|].
  intros error _.
  through_andThen; [apply untyped_get_throws|]. intros c _.
  through_andThen; [apply untyped_get_throws|]. intros d _.
  through_andThen; [apply untyped_get_throws|]. intros k _.
  discriminate.
Qed.

Lemma untyped_forEach_throws (entries : list JsValue) t :
  Untyped.forEach Untyped.getErrorFromResultError entries = Untyped.Throws t ->
  exists e, t = Untyped.ThrowTypeError e.
Proof.
  induction entries as [|x xs IH]; cbn [Untyped.forEach]; [discriminate|].
  destruct (Untyped.getErrorFromResultError x) as [b|t1] eqn:Hx;
    cbn [Untyped.andThen].
  - destruct (Untyped.forEach Untyped.getErrorFromResultError xs) as [bs|t2];
      cbn [Untyped.andThen]; [discriminate|].
    intros [= <-]. now apply IH.
  - intros [= <-]. eapply untyped_getErrorFromResultError_throws; eauto.
Qed.

Lemma untyped_getErrorFromResult_outcome (response : Untyped.Response)
    (result : JsValue) :
  match Untyped.getErrorFromResult response result with
  | Untyped.Returns e =>
      Untyped.statusCode e = Some (Untyped.status response)
  | Untyped.Throws (Untyped.ThrowError e) => e = Untyped.noEntryError
  | Untyped.Throws (Untyped.ThrowTypeError _) => True
  end.
Proof.
  unfold Untyped.getErrorFromResult.
  destruct (Untyped.get result "errors") as [errors|t] eqn:Hg;
    cbn [Untyped.andThen].
  2:{ apply untyped_get_throws in Hg as [e ->]. exact I. }
  destruct (negb (truthy errors) || negb (truthy (Untyped.first errors)));
    [reflexivity|].
  destruct (Untyped.iterate errors) as [entries|t] eqn:Hi;
    cbn [Untyped.andThen].
  2:{ destruct errors; cbn in Hi; try discriminate;
        injection Hi as <-; exact I. }
  destruct (Untyped.getErrorFromResultError (hd JUndefined entries))
    as [error|t] eqn:He; cbn [Untyped.andThen].
  2:{ apply untyped_getErrorFromResultError_throws in He as [e ->]. exact I. }
  destruct (negb (length (tl entries) =? 0)); cbn [Untyped.andThen];
    [|reflexivity].
  destruct (Untyped.forEach Untyped.getErrorFromResultError (tl entries))
    as [siblings|t] eqn:Hf; cbn [Untyped.andThen]; [reflexivity|].
  apply untyped_forEach_throws in Hf as [e ->]. exact I.
Qed.

(** Every [Error] the request throws for a received response carries the
    status of the response as its [statusCode], except the bare error
    ["Expected at least one error from Expo"], which carries none. *)
Theorem untyped_thrown_error_status (response : Untyped.Response)
    (error : Untyped.Error) :
  Untyped.requestAsync response = Untyped.Throws (Untyped.ThrowError error) ->
  error = Untyped.noEntryError
  \/ Untyped.statusCode error = Some (Untyped.status response).
Proof.
  unfold Untyped.requestAsync, Untyped.parseErrorResponseAsync.
  pose proof (untyped_getErrorFromResult_outcome response) as Hres.
  destruct (negb (Untyped.status response =? 200)).
  - destruct (Untyped.parsed response) as [result|]; cbn [Untyped.andThen].
    + specialize (Hres result).
      destruct (Untyped.get result "errors") as [errors|t] eqn:Hg;
        cbn [Untyped.andThen].
      * destruct (negb (truthy errors) || negb (isArray errors)
                  || Untyped.isEmptyArray errors); cbn [Untyped.andThen].
        -- intros [= <-]. now right.
        -- destruct (Untyped.getErrorFromResult response result)
             as [e|[e|e]]; cbn [Untyped.andThen]; intros [= <-]; auto.
      * apply untyped_get_throws in Hg as [e ->]. discriminate.
    + intros [= <-]. now right.
  - destruct (Untyped.parsed response) as [result|].
    + specialize (Hres result).
      destruct (Untyped.get result "errors") as [errors|t] eqn:Hg;
        cbn [Untyped.andThen].
      * destruct (truthy errors).
        -- destruct (Untyped.getErrorFromResult response result)
             as [e|[e|e]]; cbn [Untyped.andThen]; intros [= <-]; auto.
        -- intros H. apply untyped_get_throws in H as [e H]. discriminate H.
      * apply untyped_get_throws in Hg as [e ->]. discriminate.
    + intros [= <-]. now right.
Qed.

Lemma untyped_thrown_error_status_witness :
  {| Untyped.message :=
       "Expo responded with an error with status code 502: <html>";
     Untyped.statusCode := Some 502;
     Untyped.errorText := Some "<html>";
     Untyped.errorData := None;
     Untyped.code := JUndefined;
     Untyped.details := None;
     Untyped.serverStack := None;
     Untyped.others := None |} = Untyped.noEntryError
  \/ Some 502 = Some (Untyped.status gatewayPage).
Proof.
  apply (@untyped_thrown_error_status gatewayPage
           {| Untyped.message :=
                "Expo responded with an error with status code 502: <html>";
              Untyped.statusCode := Some 502;
              Untyped.errorText := Some "<html>";
              Untyped.errorData := None;
              Untyped.code := JUndefined;
              Untyped.details := None;
              Untyped.serverStack := None;
              Untyped.others := None |}).
  reflexivity.
Defined.

(** What the request throws for a received response passes the sender's
    retry test exactly when the status is 429 and the thrown value is an
    error built from the response: neither a [TypeError] nor the bare
    ["Expected at least one error from Expo"]. *)
Theorem untyped_retry_iff (response : Untyped.Response)
    (thrown : Untyped.Thrown) :
  Untyped.requestAsync response = Untyped.Throws thrown ->
  (Untyped.shouldRetry thrown = true
   <-> Untyped.status response = 429 /\
       exists error,
         thrown = Untyped.ThrowError error /\ error <> Untyped.noEntryError).
Proof.
  intros Hreq. destruct thrown as [error|te]; cbn [Untyped.shouldRetry].
  - destruct (untyped_thrown_error_status response Hreq) as [->|Hs].
    + cbn. split; [discriminate|].
      intros (_ & e & [= <-] & Hne). now destruct Hne.
    + rewrite Hs, Nat.eqb_eq. split.
      * intros H429. split; [assumption|]. exists error. split; [reflexivity|].
        intros ->. discriminate Hs.
      * now intros [H429 _].
  - split; [discriminate|]. intros (_ & e & H & _). discriminate H.
Qed.

Lemma untyped_retry_iff_witness :
  Untyped.shouldRetry
    (Untyped.ThrowError
       {| Untyped.message :=
            "Expo responded with an error with status code 429: slow";
          Untyped.statusCode := Some 429;
          Untyped.errorText := Some "slow";
          Untyped.errorData := None;
          Untyped.code := JUndefined;
          Untyped.details := None;
          Untyped.serverStack := None;
          Untyped.others := None |}) = true.
Proof.
  apply (proj2 (@untyped_retry_iff
                  (Untyped.mkResponse 429 "slow" None) _ eq_refl)).
  split; [reflexivity|]. eexists. split; [reflexivity|]. discriminate.
Defined.

(** *** Agreement with the normalizer on bodies of the declared type *)

Lemma typed_entry_agrees (entry : ApiResultError) :
  Untyped.getErrorFromResultError (entryValue entry)
  = Untyped.Returns (untypedError (getErrorFromResultError entry)).
Proof.
  destruct entry as [m c d st]. destruct d, st; reflexivity.
Qed.

Lemma typed_entries_agree (entries : list ApiResultError) :
  Untyped.forEach Untyped.getErrorFromResultError (map entryValue entries)
  = Untyped.Returns (map untypedError (map getErrorFromResultError entries)).
Proof.
  induction entries as [|entry entries IH]; [reflexivity|].
  cbn [map Untyped.forEach]. now rewrite typed_entry_agrees, IH.
Qed.

(** On a response whose body, when it parses, is of the declared type
    [ApiResult], the normalizer followed on the parsed value does what the
    normalizer on typed bodies does: the same value returned, or the same
    error thrown. *)
Theorem untyped_agrees_on_declared_type (response : Response) :
  match requestAsync (FetchResolved response) with
  | Return data =>
      Untyped.requestAsync (untypedResponse response) = Untyped.Returns data
  | Throw (ThrowError error) =>
      Untyped.requestAsync (untypedResponse response)
      = Untyped.Throws (Untyped.ThrowError (untypedError error))
  | Throw _ => False
  end.
Proof.
  destruct response as [st text [[errs d]|]];
    unfold requestAsync, Untyped.requestAsync, parseErrorResponseAsync,
      Untyped.parseErrorResponseAsync, getErrorFromResult,
      Untyped.getErrorFromResult, untypedResponse;
    cbn [status textBody jsonBody errors result_data option_map
           Untyped.status Untyped.textBody Untyped.parsed];
    destruct (st =? 200); cbn [negb]; try reflexivity.
  all: destruct errs as [[|entry entries]|].
  all: try (destruct d; reflexivity).
  all: unfold resultValue; cbn [errors result_data map app Untyped.get
                                  lookupProperty String.eqb Ascii.eqb Bool.eqb
                                  Untyped.andThen truthy isArray negb orb
                                  Untyped.isEmptyArray Untyped.first
                                  Untyped.iterate hd tl bind].
  all: assert (Hfirst : truthy (entryValue entry) = true) by reflexivity.
  all: try rewrite Hfirst; cbn [negb orb Untyped.andThen].
  all: rewrite typed_entry_agrees; cbn [Untyped.andThen].
  all: destruct entries as [|second entries];
    [ cbn [map length Nat.eqb negb Untyped.andThen];
      destruct entry as [m c dd stk]; destruct dd, stk; reflexivity
    | rewrite length_map; cbn [length Nat.eqb negb];
      rewrite typed_entries_agree; cbn [Untyped.andThen];
      destruct entry as [m c dd stk]; destruct dd, stk; reflexivity ].
Qed.
